(** * K shortest loopless paths (Yen's algorithm over a NetworkX graph)

    Shallow embedding of [k_shortest_paths.py], and proofs about it.

    The graph store, [heapq] and [single_source_dijkstra] are library
    code.  The source uses [G.edge], [edges_iter] and the positional
    [add_edge(u, v, attr)], which only NetworkX 1.x offers; the library
    is embedded from the behaviour of NetworkX 1.11:
    - a graph keeps its edges in insertion order, and the adjacency of a
      node is iterated in that order;
    - the fringe of Dijkstra's algorithm holds [(distance, counter, node)],
      equal distances are served in the order of discovery;
    - a loop over the edges of a node runs over the edges that are there
      when the loop begins, also when its body removes them;
    - weights are integers (floating point is not modelled). *)

From Stdlib Require Import ZArith Lia.
From stdpp Require Import base option list gmap strings.

(** ** Exceptions and results *)

Inductive exn := NetworkXNoPath | ValueError | KeyError | IndexError.

Inductive result (A : Type) : Type :=
| Ok (a : A)
| Raise (e : exn).
Arguments Ok {A} a.
Arguments Raise {A} e.

Definition rbind {A B} (r : result A) (k : A → result B) : result B :=
  match r with Ok a => k a | Raise e => Raise e end.

(** Python's [d[k]] on a dict and [l[i]] on a list. *)
Definition getitem {A} (o : option A) : result A :=
  match o with Some a => Ok a | None => Raise KeyError end.
Definition index {A} (l : list A) (i : nat) : result A :=
  match l !! i with Some a => Ok a | None => Raise IndexError end.

(** An edge attribute dictionary, e.g. [{'length': 7, 'weight': 7}]. *)
Abbreviation attr := (gmap string Z).

(** [edge_attr.get(weight, 1)] *)
Definition get_weight (weight : string) (a : attr) : Z := default 1%Z (a !! weight).

(** ** The candidate heap and Dijkstra's fringe

    [heapq] over tuples that start with [(number, counter)].  The
    counter makes the keys pairwise different, so the tuple order never
    looks at the third component and [heappop] is determined by the
    contents alone: the array layout of [heapq] is not modelled. *)

Section heap.
Context {X : Type}.
Abbreviation entry := (Z * nat * X)%type.

Definition entry_le (a b : entry) : bool :=
  (a.1.1 <? b.1.1)%Z || ((a.1.1 =? b.1.1)%Z && (a.1.2 <=? b.1.2)).

Definition heappush (h : list entry) (e : entry) : list entry := h ++ [e].

Fixpoint heappop (h : list entry) : option (entry * list entry) :=
  match h with
  | [] => None
  | x :: h' =>
      match heappop h' with
      | None => Some (x, [])
      | Some (m, r) => if entry_le x m then Some (x, h') else Some (m, x :: r)
      end
  end.

End heap.

Declare Scope result_scope.
Delimit Scope result_scope with R.
Notation "x <- r ;; k" := (rbind r (λ x, k))
  (at level 100, r at next level, right associativity) : result_scope.

(** ** The graph store

    A NetworkX [Graph] or [DiGraph]: the edges in insertion order, each
    with its attribute dictionary.  A dictionary of NetworkX iterates in
    insertion order, so the adjacency of a node is the sub-list of the
    edges that touch it.  Every node value counts as a node of the graph
    (the node table is not modelled). *)

Section store.
Context {node : Type} `{Countable node}.

Record graph := Graph {
  is_directed : bool;
  edge_list : list (node * node * attr)
}.

(** Does the stored edge [(x, y)] answer a query for [(u, v)]? *)
Definition same_edge (d : bool) (u v x y : node) : bool :=
  bool_decide (x = u ∧ y = v) || negb d && bool_decide (x = v ∧ y = u).

Fixpoint find_edge (d : bool) (l : list (node * node * attr)) (u v : node)
  : option attr :=
  match l with
  | [] => None
  | (x, y, a) :: l' => if same_edge d u v x y then Some a else find_edge d l' u v
  end.

(** [G.edge[u][v]] *)
Definition edge (G : graph) (u v : node) : option attr :=
  find_edge (is_directed G) (edge_list G) u v.

Definition has_edge (G : graph) (u v : node) : bool :=
  bool_decide (is_Some (edge G u v)).

Definition remove_edge (G : graph) (u v : node) : graph :=
  Graph (is_directed G)
    (filter (λ e, same_edge (is_directed G) u v e.1.1 e.1.2 = false) (edge_list G)).

(** [G.add_edge(u, v, attr_dict)]: an existing edge keeps its place and
    has its dictionary updated, a new one is appended. *)
Definition add_edge (G : graph) (u v : node) (a : attr) : graph :=
  match edge G u v with
  | Some _ =>
      Graph (is_directed G)
        ((λ e, if same_edge (is_directed G) u v e.1.1 e.1.2
               then (e.1, a ∪ e.2) else e) <$> edge_list G)
  | None => Graph (is_directed G) (edge_list G ++ [(u, v, a)])
  end.

(** [G[v].items()]: the successors of [v] in a [DiGraph], the neighbours
    in a [Graph]. *)
Definition adj (G : graph) (v : node) : list (node * attr) :=
  omap (λ e, if decide (e.1.1 = v) then Some (e.1.2, e.2)
             else if negb (is_directed G) && bool_decide (e.1.2 = v)
                  then Some (e.1.1, e.2) else None) (edge_list G).

(** [G.edges_iter(node, data=True)] *)
Definition edges_iter (G : graph) (n : node) : list (node * node * attr) :=
  (λ va, (n, va.1, va.2)) <$> adj G n.

(** [G.in_edges_iter(node, data=True)] of a [DiGraph] *)
Definition in_edges_iter (G : graph) (n : node) : list (node * node * attr) :=
  filter (λ e, e.1.2 = n) (edge_list G).

(** ** [nx.single_source_dijkstra] *)

Record dstate := DState {
  d_dist : gmap node Z;
  d_seen : gmap node Z;
  d_paths : gmap node (list node);
  d_fringe : list (Z * nat * node);
  d_c : nat
}.

(** One turn of [for u, e in G_succ[v].items()]. *)
Definition relax (weight : string) (v : node) (acc : result dstate)
    (ue : node * attr) : result dstate :=
  (st <- acc ;;
   dv <- getitem (d_dist st !! v) ;;
   let vu_dist := (dv + get_weight weight ue.2)%Z in
   match d_dist st !! ue.1 with
   | Some du => if (vu_dist <? du)%Z then Raise ValueError else Ok st
   | None =>
       if match d_seen st !! ue.1 with
          | None => true
          | Some su => (vu_dist <? su)%Z
          end
       then
         pv <- getitem (d_paths st !! v) ;;
         Ok (DState (d_dist st) (<[ue.1 := vu_dist]> (d_seen st))
               (<[ue.1 := pv ++ [ue.1]]> (d_paths st))
               (heappush (d_fringe st) (vu_dist, d_c st, ue.1))
               (S (d_c st)))
       else Ok st
   end)%R.

(** [while fringe: ...].  The loop pops once per turn and pushes at most
    once per adjacency entry of a node it finalises, so it runs at most
    [2 * |E| + 1] turns; [fuel] only has to exceed that
    (see [dijkstra_loop_fuel]). *)
Fixpoint dijkstra_loop (fuel : nat) (G : graph) (target : node)
    (weight : string) (st : dstate)
  : result (gmap node Z * gmap node (list node)) :=
  match fuel with
  | O => Ok (d_dist st, d_paths st)
  | S fuel =>
      match heappop (d_fringe st) with
      | None => Ok (d_dist st, d_paths st)
      | Some ((d, _, v), fringe) =>
          match d_dist st !! v with
          | Some _ =>
              dijkstra_loop fuel G target weight
                (DState (d_dist st) (d_seen st) (d_paths st) fringe (d_c st))
          | None =>
              let st := DState (<[v := d]> (d_dist st)) (d_seen st) (d_paths st)
                          fringe (d_c st) in
              if decide (v = target) then Ok (d_dist st, d_paths st)
              else
                (st' <- foldl (relax weight v) (Ok st) (adj G v) ;;
                 dijkstra_loop fuel G target weight st')%R
          end
      end
  end.

Definition single_source_dijkstra (G : graph) (source target : node)
    (weight : string) : result (gmap node Z * gmap node (list node)) :=
  if decide (source = target)
  then Ok ({[source := 0%Z]}, {[source := [source]]})
  else dijkstra_loop (2 * length (edge_list G) + 2) G target weight
         (DState ∅ {[source := 0%Z]} {[source := [source]]} [(0%Z, 0, source)] 1).

(** ** [get_path_length] *)

Definition get_path_length (G : graph) (path : list node) (weight : string)
  : result Z :=
  if decide (1 < length path) then
    foldl (λ acc i,
             (length <- acc ;;
              u <- index path i ;;
              v <- index path (i + 1) ;;
              a <- getitem (edge G u v) ;;
              Ok (length + get_weight weight a)%Z)%R)
          (Ok 0%Z) (seq 0 (length path - 1))
  else Ok 0%Z.

(** ** Computations on the shared graph

    [k_shortest_paths] mutates [G] in place and can raise while edges
    are removed: a computation takes the store and gives back a result
    or an exception together with the store as it stands. *)

Definition M (A : Type) : Type := graph → result A * graph.

Definition ret {A} (a : A) : M A := λ G, (Ok a, G).
Definition raise {A} (e : exn) : M A := λ G, (Raise e, G).
Definition lift {A} (r : result A) : M A := λ G, (r, G).
Definition bind {A B} (m : M A) (k : A → M B) : M B :=
  λ G, match m G with
       | (Ok a, G') => k a G'
       | (Raise e, G') => (Raise e, G')
       end.
Definition get : M graph := λ G, (Ok G, G).
Definition modify (f : graph → graph) : M () := λ G, (Ok (), f G).

Declare Scope store_scope.
Delimit Scope store_scope with M.
Notation "x <- m ;; k" := (bind m (λ x, k))
  (at level 100, m at next level, right associativity) : store_scope.
Notation "m ;;; k" := (bind m (λ _, k))
  (at level 100, right associativity) : store_scope.

Fixpoint for_each {A S} (l : list A) (body : S → A → M S) (s : S) : M S :=
  match l with
  | [] => ret s
  | a :: l' => (s' <- body s a ;; for_each l' body s')%M
  end.

(** ** [k_shortest_paths] *)

Abbreviation removed := (list (node * node * attr)).

Definition remove_edges (es : removed) : M () :=
  modify (λ G, foldl (λ G e, remove_edge G e.1.1 e.1.2) G es).

(** Lines 79-86: the edge after the root in every accepted path that
    shares the root. *)
Definition prune_shared (root_path : list node) (j : nat)
    (edges_removed : removed) (c_path : list node) : M removed :=
  (if decide (j < length c_path ∧ root_path = take (j + 1) c_path) then
     u <- lift (index c_path j) ;;
     v <- lift (index c_path (j + 1)) ;;
     G <- get ;;
     if has_edge G u v then
       edge_attr <- lift (getitem (edge G u v)) ;;
       modify (λ G, remove_edge G u v) ;;;
       ret (edges_removed ++ [(u, v, edge_attr)])
     else ret edges_removed
   else ret edges_removed)%M.

(** Lines 88-111: every edge at a root node before the spur node.  The
    in-edges are taken as they stand when their loop begins. *)
Definition prune_root (root_path : list node) (edges_removed : removed)
    (n : nat) : M removed :=
  (node <- lift (index root_path n) ;;
   G <- get ;;
   let temp_edge_attr := edges_iter G node in
   remove_edges temp_edge_attr ;;;
   let edges_removed := edges_removed ++ temp_edge_attr in
   G <- get ;;
   if is_directed G then
     let ins := in_edges_iter G node in
     remove_edges ins ;;;
     ret (edges_removed ++ ins)
   else ret edges_removed)%M.

(** Lines 119-121 *)
Definition restore (edges_removed : removed) : M () :=
  modify (λ G, foldl (λ G e, add_edge G e.1.1 e.1.2 e.2) G edges_removed).

Record ystate := YState {
  lengths : list Z;
  paths : list (list node);
  B : list (Z * nat * list node);
  c : nat
}.

Definition last_item {A} (l : list A) : result A :=
  match last l with Some a => Ok a | None => Raise IndexError end.

(** Lines 75-121: the body of [for j in range(len(paths[-1]) - 1)]. *)
Definition spur (G_original : graph) (target : node) (weight : string)
    (paths : list (list node)) (Bc : list (Z * nat * list node) * nat)
    (j : nat) : M (list (Z * nat * list node) * nat) :=
  (last_path <- lift (last_item paths) ;;
   spur_node <- lift (index last_path j) ;;
   let root_path := take (j + 1) last_path in
   edges_removed <- for_each paths (prune_shared root_path j) [] ;;
   edges_removed <- for_each (seq 0 (length root_path - 1))
                      (prune_root root_path) edges_removed ;;
   G <- get ;;
   sp <- lift (single_source_dijkstra G spur_node target weight) ;;
   Bc' <- match sp.2 !! target with
          | Some (x :: spur_path) =>
              let total_path := take (length root_path - 1) root_path
                                  ++ x :: spur_path in
              root_length <- lift (get_path_length G_original root_path weight) ;;
              spur_length <- lift (getitem (sp.1 !! target)) ;;
              let total_path_length := (root_length + spur_length)%Z in
              ret (heappush Bc.1 (total_path_length, Bc.2, total_path), S Bc.2)
          | _ => ret Bc
          end ;;
   restore edges_removed ;;;
   ret Bc')%M.

(** Lines 74-128: the body of [for i in range(1, k)]; [None] is [break]. *)
Definition yen_step (G_original : graph) (target : node) (weight : string)
    (st : ystate) : M (option ystate) :=
  (last_path <- lift (last_item (paths st)) ;;
   Bc <- for_each (seq 0 (length last_path - 1))
           (spur G_original target weight (paths st)) (B st, c st) ;;
   match heappop Bc.1 with
   | Some (lp, B') =>
       ret (Some (YState (lengths st ++ [lp.1.1]) (paths st ++ [lp.2]) B' Bc.2))
   | None => ret None
   end)%M.

Fixpoint yen_loop (n : nat) (G_original : graph) (target : node)
    (weight : string) (st : ystate) : M ystate :=
  match n with
  | O => ret st
  | S n =>
      (o <- yen_step G_original target weight st ;;
       match o with
       | Some st' => yen_loop n G_original target weight st'
       | None => ret st
       end)%M
  end.

Definition k_shortest_paths (G : graph) (source target : node) (k : nat)
    (weight : string) : result (list Z * list (list node)) * graph :=
  (if decide (source = target) then ret ([0%Z], [[source]])
  else
    (G <- get ;;
     lp <- lift (single_source_dijkstra G source target weight) ;;
     match lp.1 !! target with
     | None => raise NetworkXNoPath
     | Some l0 =>
         p0 <- lift (getitem (lp.2 !! target)) ;;
         G_original <- get ;;
         st <- yen_loop (k - 1) G_original target weight (YState [l0] [p0] [] 0) ;;
         ret (lengths st, paths st)
     end)%M) G.

End store.

Arguments graph : clear implicits.
Arguments ystate : clear implicits.
Arguments dstate node {_ _}.
Arguments relax : simpl never.

(** ** Paths, weights and valid inputs *)

Section notions.
Context {node : Type} `{Countable node}.

(** The sum of the edge weights along [p]; [None] when two consecutive
    nodes are not joined by an edge of [G]. *)
Fixpoint path_weight (G : graph node) (weight : string) (p : list node)
  : option Z :=
  match p with
  | [] => Some 0%Z
  | u :: p' =>
      match p' with
      | [] => Some 0%Z
      | v :: _ =>
          match edge G u v, path_weight G weight p' with
          | Some a, Some z => Some (get_weight weight a + z)%Z
          | _, _ => None
          end
      end
  end.

(** The same sum over the weights that are explicitly there. *)
Fixpoint explicit_weight (G : graph node) (weight : string) (p : list node)
  : option Z :=
  match p with
  | [] => Some 0%Z
  | u :: p' =>
      match p' with
      | [] => Some 0%Z
      | v :: _ =>
          match edge G u v ≫= (λ a, a !! weight), explicit_weight G weight p' with
          | Some x, Some z => Some (x + z)%Z
          | _, _ => None
          end
      end
  end.

(** Consecutive nodes of [p] are joined by an edge of [G]. *)
Fixpoint is_path (G : graph node) (p : list node) : Prop :=
  match p with
  | [] => True
  | u :: p' =>
      match p' with
      | [] => True
      | v :: _ => is_Some (edge G u v) ∧ is_path G p'
      end
  end.

(** A path of [G] from [s] to [t]. *)
Definition st_path (G : graph node) (s t : node) (p : list node) : Prop :=
  head p = Some s ∧ last p = Some t ∧ is_path G p.

Definition reachable (G : graph node) (s t : node) : Prop :=
  ∃ p, st_path G s t p.

(** At most one edge per pair of nodes. *)
Fixpoint no_parallel (d : bool) (l : list (node * node * attr)) : Prop :=
  match l with
  | [] => True
  | e :: l' => find_edge d l' e.1.1 e.1.2 = None ∧ no_parallel d l'
  end.

Definition simple_graph (G : graph node) : Prop :=
  no_parallel (is_directed G) (edge_list G).

Definition nonneg_weights (G : graph node) (weight : string) : Prop :=
  Forall (λ e, (0 ≤ get_weight weight e.2)%Z) (edge_list G).

(** The graphs have the same edges with the same attributes. *)
Definition same_graph (G G' : graph node) : Prop :=
  is_directed G = is_directed G' ∧ ∀ u v, edge G u v = edge G' u v.

Definition non_decreasing (l : list Z) : Prop :=
  ∀ i x y, l !! i = Some x → l !! (i + 1) = Some y → (x ≤ y)%Z.

(** The conditions on an input can be checked by evaluation. *)
#[global] Instance no_parallel_dec d l : Decision (no_parallel d l).
Proof. induction l as [|e l IH]; simpl; apply _. Defined.

#[global] Instance simple_graph_dec G : Decision (simple_graph G).
Proof. unfold simple_graph. apply _. Defined.

#[global] Instance nonneg_weights_dec G weight : Decision (nonneg_weights G weight).
Proof. unfold nonneg_weights. apply _. Defined.

#[global] Instance is_path_dec G p : Decision (is_path G p).
Proof.
  induction p as [|u [|v p] IH]; [left; exact I..|].
  change (Decision (is_Some (edge G u v) ∧ is_path G (v :: p))). apply _.
Defined.

#[global] Instance st_path_dec G s t p : Decision (st_path G s t p).
Proof. unfold st_path. apply _. Defined.

End notions.

Arguments path_weight : simpl never.
Arguments explicit_weight : simpl never.
Arguments is_path : simpl never.


(** ** Invariants of Dijkstra's loop *)

Section dijkstra_invariants.
Context {node : Type} `{Countable node}.

(** The state of [_dijkstra] between two turns of [while fringe], and
    inside the relaxation of a node when [P] marks the adjacency entries
    still to be relaxed. *)
Record dinv (G : graph node) (source target : node) (weight : string)
    (P : node → node → attr → Prop) (st : dstate node) : Prop := {
  di_dist_seen v d : d_dist st !! v = Some d → d_seen st !! v = Some d;
  di_source : d_seen st !! source = Some 0%Z;
  di_nonneg v d : d_seen st !! v = Some d → (0 ≤ d)%Z;
  di_paths v d :
    d_seen st !! v = Some d →
    ∃ p, d_paths st !! v = Some (p ++ [v]) ∧ NoDup (p ++ [v]) ∧
         (∀ x, x ∈ p → is_Some (d_dist st !! x)) ∧
         head (p ++ [v]) = Some source ∧
         path_weight G weight (p ++ [v]) = Some d;
  di_paths_dom v : d_seen st !! v = None → d_paths st !! v = None;
  di_fringe_seen e :
    e ∈ d_fringe st → ∃ d', d_seen st !! e.2 = Some d' ∧ (d' ≤ e.1.1)%Z;
  di_seen_fringe v d :
    d_seen st !! v = Some d → d_dist st !! v = None →
    ∃ c', (d, c', v) ∈ d_fringe st;
  di_closed v dv u a :
    d_dist st !! v = Some dv → edge G v u = Some a →
    P v u a ∨ ∃ du, d_seen st !! u = Some du ∧ (du ≤ dv + get_weight weight a)%Z;
  di_mono v dv e :
    d_dist st !! v = Some dv → e ∈ d_fringe st → (dv ≤ e.1.1)%Z;
  di_target : d_dist st !! target = None
}.

(** What [single_source_dijkstra] returns about [target]. *)
Definition dpost (G : graph node) (source target : node) (weight : string)
    (r : gmap node Z * gmap node (list node)) : Prop :=
  match r.1 !! target with
  | Some d =>
      ∃ p, r.2 !! target = Some p ∧ head p = Some source ∧
           last p = Some target ∧ NoDup p ∧
           path_weight G weight p = Some d ∧
           ∀ q z, head q = Some source → last q = Some target →
                  path_weight G weight q = Some z → (d ≤ z)%Z
  | None =>
      r.2 !! target = None ∧
      ∀ q, head q = Some source → last q = Some target →
           path_weight G weight q = None
  end.

(** Adjacency entries whose relaxation can still push onto the fringe. *)
Definition slots (d : bool) (dist : gmap node Z) (e : node * node * attr) : nat :=
  match dist !! e.1.1 with Some _ => 0 | None => 1 end +
  (if negb d && bool_decide (e.1.1 ≠ e.1.2) && bool_decide (dist !! e.1.2 = None)
   then 1 else 0).

Definition pending (G : graph node) (dist : gmap node Z) : nat :=
  sum_list (slots (is_directed G) dist <$> edge_list G).

Definition potential (G : graph node) (st : dstate node) : nat :=
  length (d_fringe st) + pending G (d_dist st).

End dijkstra_invariants.

(** ** Invariants of the controller *)

Section yen_invariants.
Context {node : Type} `{Countable node}.

(** [G] is [G0] with the edges of [R] removed, and [rem] records every
    removed edge with its attributes. *)
Record pruned (G0 G : graph node) (rem : list (node * node * attr))
    (R : node → node → Prop) : Prop := {
  pr_directed : is_directed G = is_directed G0;
  pr_simple : simple_graph G;
  pr_removed e : e ∈ rem → edge G0 e.1.1 e.1.2 = Some e.2;
  pr_sub u v a : edge G u v = Some a → edge G0 u v = Some a;
  pr_cut u v : R u v → edge G u v = None;
  pr_kept u v : edge G u v = None → edge G0 u v = None ∨ R u v;
  pr_recorded u v a :
    edge G0 u v = Some a → edge G u v = None →
    ∃ x y, (x, y, a) ∈ rem ∧ same_edge (is_directed G0) x y u v = true
}.

(** [p] is a loopless path of [G0] from [s] to [t] of length [l]. *)
Definition good (G0 : graph node) (s t : node) (weight : string)
    (p : list node) (l : Z) : Prop :=
  head p = Some s ∧ last p = Some t ∧ NoDup p ∧ path_weight G0 weight p = Some l.

(** Some accepted path agrees with [X] on the first [n] nodes. *)
Definition shares (A : list (list node)) (n : nat) (X : list node) : Prop :=
  Exists (λ c, take n c = take n X) A.

(** The edges removed before the spur search at position [j]. *)
Definition spur_cut (d : bool) (A : list (list node)) (root_path : list node)
    (j : nat) (u v : node) : Prop :=
  (∃ c cu cv, c ∈ A ∧ root_path = take (j + 1) c ∧
              c !! j = Some cu ∧ c !! (j + 1) = Some cv ∧
              same_edge d cu cv u v = true) ∨
  (∃ x n, n < j ∧ root_path !! n = Some x ∧ (u = x ∨ v = x)).

(** Every loopless path that is not accepted yet and leaves the accepted
    ones after [j + 1] nodes has a candidate in the heap that is no longer
    and shares these nodes. *)
Definition covered (G0 : graph node) (s t : node) (weight : string)
    (A : list (list node)) (B : list (Z * nat * list node))
    (side : nat → list node → Prop) : Prop :=
  ∀ X z j, good G0 s t weight X z → X ∉ A →
           shares A (j + 1) X → ¬ shares A (j + 2) X → side j X →
           ∃ e, e ∈ B ∧ (e.1.1 ≤ z)%Z ∧ take (j + 1) e.2 = take (j + 1) X.

(** The state of [for i in range(1, k)] between two turns. *)
Record yinv (G0 : graph node) (s t : node) (weight : string)
    (st : ystate node) (G : graph node) : Prop := {
  yi_graph : same_graph G G0;
  yi_simple : simple_graph G;
  yi_accepted :
    Forall2 (λ l p, good G0 s t weight p l) (lengths st) (paths st);
  yi_nonempty : paths st ≠ [];
  yi_heap e : e ∈ B st → good G0 s t weight e.2 e.1.1;
  yi_sorted : non_decreasing (lengths st);
  yi_lower e l : e ∈ B st → last (lengths st) = Some l → (l ≤ e.1.1)%Z;
  yi_least X z l :
    good G0 s t weight X z → X ∉ paths st → last (lengths st) = Some l → (l ≤ z)%Z;
  yi_covered :
    ∀ P, last (paths st) = Some P →
         covered G0 s t weight (paths st) (B st)
           (λ j X, take (j + 1) P ≠ take (j + 1) X)
}.

End yen_invariants.

(** ** What the claims speak about *)

Section claims.
Context {node : Type} `{Countable node}.

(** The reference notion of a shortest path: a path of [G] from [s] to
    [t] of weight [d] such that no path from [s] to [t] weighs less. *)
Definition shortest_path (G : graph node) (s t : node) (weight : string)
    (p : list node) (d : Z) : Prop :=
  st_path G s t p ∧ path_weight G weight p = Some d ∧
  ∀ q z, st_path G s t q → path_weight G weight q = Some z → (d ≤ z)%Z.

Definition loopless (p : list node) : Prop := NoDup p.

(** The state in which [for i in range(1, k)] is entered. *)
Definition yen_start (G : graph node) (source target : node) (weight : string)
  : option (ystate node) :=
  match single_source_dijkstra G source target weight with
  | Ok lp =>
      match lp.1 !! target, lp.2 !! target with
      | Some l0, Some p0 => Some (YState [l0] [p0] [] 0)
      | _, _ => None
      end
  | Raise _ => None
  end.

(** The states in which a turn of [for i in range(1, k)] can begin. *)
Inductive yen_reach (G_original : graph node) (target : node) (weight : string)
    (st0 : ystate node) : ystate node → graph node → Prop :=
| reach_start : yen_reach G_original target weight st0 st0 G_original
| reach_turn st G st' G' :
    yen_reach G_original target weight st0 st G →
    yen_step G_original target weight st G = (Ok (Some st'), G') →
    yen_reach G_original target weight st0 st' G'.

End claims.

(** ** Example graphs *)

Definition weighted (z : Z) : attr := {[ "length" := z; "weight" := z ]}.

(** The graph built under [if __name__ == "__main__"]. *)
Definition demo_graph : graph string :=
  Graph true
    [("A", "B", weighted 7); ("A", "C", weighted 12); ("B", "C", weighted 2);
     ("B", "D", weighted 9); ("C", "E", weighted 10); ("E", "D", weighted 4);
     ("E", "F", weighted 5); ("D", "F", weighted 1)].

(** [nx.complete_graph(5)] of the docstring: no edge carries a weight. *)
Definition complete_graph_5 : graph nat :=
  Graph false
    [(0, 1, ∅); (0, 2, ∅); (0, 3, ∅); (0, 4, ∅); (1, 2, ∅);
     (1, 3, ∅); (1, 4, ∅); (2, 3, ∅); (2, 4, ∅); (3, 4, ∅)].

(** An undirected graph with three loopless paths from [s] to [t]:
    [s a t] (2), [s a c t] (3) and [s t] (10). *)
Definition detour_graph : graph string :=
  Graph false
    [("s", "a", {[ "weight" := 1%Z ]}); ("a", "t", {[ "weight" := 1%Z ]});
     ("a", "c", {[ "weight" := 1%Z ]}); ("c", "t", {[ "weight" := 1%Z ]});
     ("s", "t", {[ "weight" := 10%Z ]})].

(** ** Further notions *)

Section further.
Context {node : Type}.

(** The sequence ids in the heap are pairwise different and below the
    counter. *)
Definition fresh_ids (B : list (Z * nat * list node)) (c : nat) : Prop :=
  NoDup ((λ e, e.1.2) <$> B) ∧ ∀ e, e ∈ B → e.1.2 < c.

End further.

(** * Facts about the heap *)

Section heap_facts.
Context {X : Type}.
Implicit Types h r : list (Z * nat * X).

Lemma heappop_None h : heappop h = None ↔ h = [].
Proof.
  destruct h as [|x h]; simpl; [done|].
  split; [|done]. destruct (heappop h) as [[m r]|]; [|done].
  by destruct (entry_le x m).
Qed.

Lemma heappop_perm h m r : heappop h = Some (m, r) → h ≡ₚ m :: r.
Proof.
  revert m r. induction h as [|x h IH]; intros m r; simpl; [done|].
  destruct (heappop h) as [[m' r']|] eqn:E.
  - destruct (entry_le x m'); intros [= <- <-]; [done|].
    rewrite (IH _ _ eq_refl). apply Permutation_swap.
  - intros [= <- <-]. apply heappop_None in E. by subst.
Qed.

Lemma heappop_min h m r e :
  heappop h = Some (m, r) → e ∈ h → (m.1.1 ≤ e.1.1)%Z.
Proof.
  revert m r e. induction h as [|x h IH]; intros m r e; simpl; [done|].
  destruct (heappop h) as [[m' r']|] eqn:E.
  - pose proof (IH _ _ e eq_refl) as IHe.
    destruct (entry_le x m') eqn:Hle; intros [= <- <-];
      rewrite elem_of_cons; intros [->|Hin]; try lia; auto.
    + specialize (IHe Hin). unfold entry_le in Hle. lia.
    + unfold entry_le in Hle. lia.
  - apply heappop_None in E. subst. intros [= <- <-].
    rewrite elem_of_cons. intros [->|Hin]; [lia|]. by apply elem_of_nil in Hin.
Qed.

Lemma heappop_elem h m r : heappop h = Some (m, r) → m ∈ h.
Proof. intros Hp. rewrite (heappop_perm _ _ _ Hp). left. Qed.

Lemma heappop_rest h m r e : heappop h = Some (m, r) → e ∈ r → e ∈ h.
Proof. intros Hp He. rewrite (heappop_perm _ _ _ Hp). by right. Qed.

Lemma heappop_length h m r : heappop h = Some (m, r) → length h = S (length r).
Proof. intros Hp. by rewrite (heappop_perm _ _ _ Hp). Qed.
Lemma heappop_in h m r e : heappop h = Some (m, r) → e ∈ h ↔ e = m ∨ e ∈ r.
Proof. intros Hp. rewrite (heappop_perm _ _ _ Hp). apply elem_of_cons. Qed.

End heap_facts.

(** * Facts about the graph store *)

Section store_facts.
Context {node : Type} `{Countable node}.
Implicit Types G : graph node.
Implicit Types u v x y : node.
Implicit Types a b : attr.

Lemma same_edge_true d u v x y :
  same_edge d u v x y = true ↔ (x = u ∧ y = v) ∨ (d = false ∧ x = v ∧ y = u).
Proof.
  unfold same_edge. rewrite orb_true_iff, andb_true_iff, negb_true_iff.
  rewrite !bool_decide_eq_true. tauto.
Qed.

Lemma same_edge_false d u v x y :
  same_edge d u v x y = false ↔ ¬ ((x = u ∧ y = v) ∨ (d = false ∧ x = v ∧ y = u)).
Proof. rewrite <-same_edge_true. by destruct (same_edge d u v x y). Qed.

Lemma same_edge_refl d u v : same_edge d u v u v = true.
Proof. apply same_edge_true. auto. Qed.

Lemma same_edge_sym d u v x y : same_edge d u v x y = same_edge d x y u v.
Proof.
  destruct (same_edge d x y u v) eqn:E.
  - apply same_edge_true in E. apply same_edge_true.
    destruct E as [[-> ->]|(? & -> & ->)]; auto.
  - apply same_edge_false in E. apply same_edge_false.
    intros [[-> ->]|(? & -> & ->)]; apply E; auto.
Qed.

Lemma same_edge_trans d u v x y x' y' :
  same_edge d u v x y = true → same_edge d x y x' y' = same_edge d u v x' y'.
Proof.
  intros E%same_edge_true. destruct (same_edge d u v x' y') eqn:E'.
  - apply same_edge_true in E'. apply same_edge_true.
    destruct E as [[-> ->]|(? & -> & ->)], E' as [[-> ->]|(? & -> & ->)]; auto.
  - apply same_edge_false in E'. apply same_edge_false.
    destruct E as [[-> ->]|(? & -> & ->)];
      intros [[-> ->]|(? & -> & ->)]; apply E'; auto.
Qed.

Lemma find_edge_Some d l u v a :
  find_edge d l u v = Some a →
  ∃ x y, (x, y, a) ∈ l ∧ same_edge d u v x y = true.
Proof.
  induction l as [|[[x y] b] l IH]; simpl; [done|].
  destruct (same_edge d u v x y) eqn:E.
  - intros [= ->]. exists x, y. split; [left|done].
  - intros (x' & y' & Hin & E')%IH. exists x', y'. split; [by right|done].
Qed.

Lemma find_edge_None d l u v x y a :
  find_edge d l u v = None → (x, y, a) ∈ l → same_edge d u v x y = false.
Proof.
  induction l as [|[[x' y'] b] l IH]; simpl; [by intros _ ?%elem_of_nil|].
  destruct (same_edge d u v x' y') eqn:E; [done|].
  intros Hn [[= -> -> ->]|Hin]%elem_of_cons; auto.
Qed.

Lemma find_edge_elem d l x y a :
  no_parallel d l → (x, y, a) ∈ l → find_edge d l x y = Some a.
Proof.
  induction l as [|[[x' y'] b] l IH]; simpl; [by intros _ ?%elem_of_nil|].
  intros [Hn Hl] [[= -> -> ->]|Hin]%elem_of_cons.
  - by rewrite same_edge_refl.
  - rewrite same_edge_sym, (find_edge_None _ _ _ _ _ _ _ Hn Hin). auto.
Qed.

Lemma find_edge_same d l u v x y :
  same_edge d u v x y = true → find_edge d l x y = find_edge d l u v.
Proof.
  intros E. induction l as [|[[x' y'] b] l IH]; simpl; [done|].
  by rewrite (same_edge_trans _ _ _ _ _ _ _ E), IH.
Qed.

Lemma edge_same G u v x y :
  same_edge (is_directed G) u v x y = true → edge G x y = edge G u v.
Proof. apply find_edge_same. Qed.

Lemma edge_undirected G u v : is_directed G = false → edge G v u = edge G u v.
Proof. intros Hd. apply edge_same, same_edge_true. auto. Qed.

(** *** [remove_edge] *)

Lemma is_directed_remove_edge G u v :
  is_directed (remove_edge G u v) = is_directed G.
Proof. done. Qed.

Lemma edge_remove_edge G u v x y :
  edge (remove_edge G u v) x y =
  if same_edge (is_directed G) u v x y then None else edge G x y.
Proof.
  unfold edge, remove_edge. simpl. generalize (is_directed G) as d. intros d.
  induction (edge_list G) as [|[[x' y'] b] l IH]; simpl.
  - by destruct (same_edge d u v x y).
  - rewrite filter_cons. simpl. destruct (decide _) as [E|E]; simpl.
    + rewrite IH. destruct (same_edge d u v x y) eqn:E2; [|done].
      by rewrite (same_edge_trans _ _ _ _ _ _ _ E2), E.
    + rewrite IH. apply not_false_is_true in E.
      destruct (same_edge d u v x y) eqn:E2; [done|].
      by rewrite (same_edge_sym d x y x' y'), (same_edge_trans _ _ _ _ _ _ _ E), E2.
Qed.

Lemma no_parallel_filter d (P : node * node * attr → Prop) `{∀ e, Decision (P e)} l :
  no_parallel d l → no_parallel d (filter P l).
Proof.
  induction l as [|e l IH]; simpl; [done|]. intros [Hn Hl].
  rewrite filter_cons. destruct (decide (P e)); simpl; auto.
  split; [|auto]. destruct (find_edge d (filter P l) e.1.1 e.1.2) eqn:E; [|done].
  apply find_edge_Some in E as (x & y & [_ Hin]%list_elem_of_filter & E).
  by rewrite (find_edge_None _ _ _ _ _ _ _ Hn Hin) in E.
Qed.

Lemma simple_remove_edge G u v : simple_graph G → simple_graph (remove_edge G u v).
Proof. apply no_parallel_filter. Qed.

(** *** [add_edge] *)

Lemma is_directed_add_edge G u v a : is_directed (add_edge G u v a) = is_directed G.
Proof. unfold add_edge. by destruct (edge G u v). Qed.

Lemma find_edge_update d l u v a x y :
  find_edge d
    ((λ e, if same_edge d u v e.1.1 e.1.2 then (e.1, a ∪ e.2) else e) <$> l) x y =
  if same_edge d u v x y then (a ∪.) <$> find_edge d l x y else find_edge d l x y.
Proof.
  induction l as [|[[x' y'] b] l IH]; csimpl.
  - by destruct (same_edge d u v x y).
  - destruct (same_edge d u v x' y') eqn:E; csimpl; rewrite IH.
    + destruct (same_edge d u v x y) eqn:E2.
      * by destruct (same_edge d x y x' y').
      * rewrite (same_edge_sym d x y x' y'), (same_edge_trans _ _ _ _ _ _ _ E).
        by rewrite E2.
    + destruct (same_edge d u v x y) eqn:E2; [|done].
      by rewrite (same_edge_trans _ _ _ _ _ _ _ E2), E.
Qed.

Lemma find_edge_app d l l' x y :
  find_edge d (l ++ l') x y =
  match find_edge d l x y with Some a => Some a | None => find_edge d l' x y end.
Proof.
  induction l as [|[[x' y'] b] l IH]; simpl; [done|].
  by destruct (same_edge d x y x' y').
Qed.

Lemma edge_add_edge G u v a x y :
  edge (add_edge G u v a) x y =
  if same_edge (is_directed G) u v x y
  then Some (a ∪ default ∅ (edge G u v)) else edge G x y.
Proof.
  unfold add_edge. destruct (edge G u v) as [b|] eqn:E; unfold edge in *; simpl.
  - rewrite find_edge_update. destruct (same_edge _ u v x y) eqn:E2; [|done].
    by rewrite (find_edge_same _ _ _ _ _ _ E2), E.
  - rewrite find_edge_app. simpl. rewrite (same_edge_sym _ x y u v).
    destruct (same_edge _ u v x y) eqn:E2.
    + rewrite (find_edge_same _ _ _ _ _ _ E2), E. by rewrite (right_id_L ∅ (∪)).
    + by destruct (find_edge _ _ x y).
Qed.

Lemma simple_add_edge G u v a : simple_graph G → simple_graph (add_edge G u v a).
Proof.
  unfold simple_graph, add_edge.
  destruct (edge G u v) as [b|] eqn:E; unfold edge in *; simpl;
    generalize dependent (is_directed G); intros d.
  - intros _. induction (edge_list G) as [|e l IH]; simpl; [done|].
    intros [Hn Hl]. split; [|auto].
    assert (∀ x y, find_edge d l x y = None →
      find_edge d ((λ e, if same_edge d u v e.1.1 e.1.2 then (e.1, a ∪ e.2) else e)
                     <$> l) x y = None) as Hnone.
    { intros x y Hxy. rewrite find_edge_update, Hxy.
      by destruct (same_edge d u v x y). }
    destruct (same_edge d u v e.1.1 e.1.2); simpl; auto.
  - induction (edge_list G) as [|[[x' y'] b'] l IH]; simpl; [done|].
    destruct (same_edge d u v x' y') eqn:E2; [done|].
    intros Hl [Hn Hl']. split; [|auto].
    rewrite find_edge_app, Hn. simpl. by rewrite same_edge_sym, E2.
Qed.

(** *** Adjacency *)

Lemma elem_of_adj G v u a :
  (u, a) ∈ adj G v ↔
  ∃ x y, (x, y, a) ∈ edge_list G ∧ same_edge (is_directed G) v u x y = true.
Proof.
  unfold adj. rewrite list_elem_of_omap. split.
  - intros ([[x y] b] & Hin & Hf). simpl in Hf. exists x, y.
    destruct (decide (x = v)) as [->|Hne].
    + injection Hf as <- <-. split; [done|]. apply same_edge_true. auto.
    + destruct (is_directed G) eqn:Hd; simpl in Hf; [done|].
      case_bool_decide; [|done]. injection Hf as <- <-. subst y.
      split; [done|]. apply same_edge_true. auto.
  - intros (x & y & Hin & E). exists (x, y, a). split; [done|]. simpl.
    apply same_edge_true in E as [[-> ->]|(Hd & -> & ->)].
    + by rewrite decide_True.
    + rewrite Hd. simpl. rewrite bool_decide_eq_true_2 by done.
      destruct (decide (u = v)) as [->|]; done.
Qed.

Lemma adj_edge G v u a : simple_graph G → (u, a) ∈ adj G v ↔ edge G v u = Some a.
Proof.
  intros Hs. rewrite elem_of_adj. split.
  - intros (x & y & Hin & E). unfold edge.
    rewrite <-(find_edge_same _ _ _ _ _ _ E). by apply find_edge_elem.
  - apply find_edge_Some.
Qed.

Lemma elem_of_edges_iter G n x y a :
  (x, y, a) ∈ edges_iter G n ↔ x = n ∧ (y, a) ∈ adj G n.
Proof.
  unfold edges_iter. rewrite list_elem_of_fmap. split.
  - intros ([u b] & [= -> -> ->] & Hin). done.
  - intros [-> Hin]. by exists (y, a).
Qed.

Lemma elem_of_in_edges_iter G n x y a :
  (x, y, a) ∈ in_edges_iter G n ↔ y = n ∧ (x, y, a) ∈ edge_list G.
Proof. unfold in_edges_iter. by rewrite list_elem_of_filter. Qed.

Lemma in_edges_iter_edge G n x y a :
  simple_graph G → (x, y, a) ∈ in_edges_iter G n → y = n ∧ edge G x y = Some a.
Proof.
  intros Hs [-> Hin]%elem_of_in_edges_iter. split; [done|].
  by apply find_edge_elem.
Qed.

Lemma edge_in_edges_iter G x n a :
  is_directed G = true → edge G x n = Some a → (x, n, a) ∈ in_edges_iter G n.
Proof.
  intros Hd (x' & y' & Hin & E)%find_edge_Some. rewrite Hd in E.
  apply same_edge_true in E as [[-> ->]|[? _]]; [|done].
  by apply elem_of_in_edges_iter.
Qed.

(** *** Paths *)

Lemma path_weight_nil G w : path_weight G w [] = Some 0%Z.
Proof. done. Qed.

Lemma path_weight_singleton G w x : path_weight G w [x] = Some 0%Z.
Proof. done. Qed.

Lemma path_weight_cons2 G w u v p :
  path_weight G w (u :: v :: p) =
  a ← edge G u v; z ← path_weight G w (v :: p); Some (get_weight w a + z)%Z.
Proof.
  change (path_weight G w (u :: v :: p)) with
    (match edge G u v, path_weight G w (v :: p) with
     | Some a, Some z => Some (get_weight w a + z)%Z
     | _, _ => None
     end).
  destruct (edge G u v); simpl; [|done]. by destruct (path_weight G w (v :: p)).
Qed.

Lemma path_weight_app G w p x q :
  path_weight G w (p ++ x :: q) =
  z1 ← path_weight G w (p ++ [x]); z2 ← path_weight G w (x :: q); Some (z1 + z2)%Z.
Proof.
  induction p as [|u p IH].
  - simpl app. rewrite path_weight_singleton.
    destruct (path_weight G w (x :: q)) as [z|]; simpl; [|done]. f_equal; lia.
  - destruct p as [|v p].
    + simpl app in *. rewrite !path_weight_cons2.
      destruct (edge G u x) as [a|]; simpl; [|done].
      destruct (path_weight G w (x :: q)) as [z|]; simpl; [|done]. f_equal; lia.
    + simpl app in *. rewrite !path_weight_cons2.
      destruct (edge G u v) as [a|]; simpl; [|done]. rewrite IH.
      destruct (path_weight G w (v :: p ++ [x])) as [z1|]; simpl; [|done].
      destruct (path_weight G w (x :: q)) as [z2|]; simpl; [|done]. f_equal; lia.
Qed.

Lemma path_weight_snoc G w p x y :
  path_weight G w (p ++ [x; y]) =
  z ← path_weight G w (p ++ [x]); a ← edge G x y; Some (z + get_weight w a)%Z.
Proof.
  rewrite path_weight_app, path_weight_cons2.
  destruct (path_weight G w (p ++ [x])) as [z|]; simpl; [|done].
  destruct (edge G x y) as [a|]; simpl; [|done].
  f_equal; lia.
Qed.

Lemma is_path_weight G w p : is_path G p ↔ is_Some (path_weight G w p).
Proof.
  induction p as [|u [|v p] IH]; [by split; eauto..|].
  rewrite path_weight_cons2. change (is_path G (u :: v :: p)) with
    (is_Some (edge G u v) ∧ is_path G (v :: p)).
  rewrite IH. split.
  - intros [[a ->] [z ->]]. simpl. eauto.
  - destruct (edge G u v); simpl; [|by intros [??]].
    destruct (path_weight G w (v :: p)); simpl; [eauto|by intros [??]].
Qed.

Lemma path_weight_mono G G' w p z :
  (∀ i u v a, p !! i = Some u → p !! (i + 1) = Some v →
              edge G u v = Some a → edge G' u v = Some a) →
  path_weight G w p = Some z → path_weight G' w p = Some z.
Proof.
  revert z. induction p as [|u [|v p] IH]; intros z Hsub; [done..|].
  rewrite !path_weight_cons2.
  destruct (edge G u v) as [a|] eqn:E; simpl; [|done].
  rewrite (Hsub 0 u v a eq_refl eq_refl E). simpl.
  destruct (path_weight G w (v :: p)) as [z'|] eqn:E'; simpl; [|done].
  rewrite (IH z'); [done| |done].
  intros i u' v' a' H1 H2. apply (Hsub (S i)); done.
Qed.

Lemma path_weight_same G G' w p :
  (∀ u v, edge G u v = edge G' u v) → path_weight G w p = path_weight G' w p.
Proof.
  intros Hsame. induction p as [|u [|v p] IH]; [done..|].
  by rewrite !path_weight_cons2, Hsame, IH.
Qed.

Lemma nonneg_weights_edge G w u v a :
  nonneg_weights G w → edge G u v = Some a → (0 ≤ get_weight w a)%Z.
Proof.
  intros Hn (x & y & Hin & _)%find_edge_Some.
  unfold nonneg_weights in Hn. rewrite Forall_forall in Hn. apply (Hn _ Hin).
Qed.

Lemma path_weight_nonneg G w p z :
  nonneg_weights G w → path_weight G w p = Some z → (0 ≤ z)%Z.
Proof.
  intros Hn. revert z. induction p as [|u [|v p] IH]; intros z;
    [by intros [= <-]..|].
  rewrite path_weight_cons2.
  destruct (edge G u v) as [a|] eqn:E; simpl; [|done].
  destruct (path_weight G w (v :: p)) as [z'|]; simpl; [|done].
  intros [= <-]. pose proof (nonneg_weights_edge _ _ _ _ _ Hn E).
  specialize (IH _ eq_refl). lia.
Qed.

Lemma foldl_Raise {A C} (f : result A → C → result A) e l :
  (∀ c, f (Raise e) c = Raise e) → foldl f (Raise e) l = Raise e.
Proof. intros Hf. induction l as [|c l IH]; simpl; [done|]. by rewrite Hf. Qed.

Lemma get_path_length_weight G p w :
  get_path_length G p w =
  match path_weight G w p with Some z => Ok z | None => Raise KeyError end.
Proof.
  unfold get_path_length.
  set (f := λ (acc : result Z) (i : nat), _).
  assert (∀ q pre acc, p = pre ++ q →
    foldl f (Ok acc) (seq (length pre) (length q - 1)) =
    match path_weight G w q with
    | Some z => Ok (acc + z)%Z | None => Raise KeyError
    end) as Hgen.
  { induction q as [|u [|v q] IH]; intros pre acc ->; simpl seq.
    - simpl. f_equal; lia.
    - simpl. f_equal; lia.
    - rewrite path_weight_cons2. simpl length.
      replace (S (S (length q)) - 1) with (S (length q)) by lia.
      simpl seq. simpl foldl. unfold index.
      rewrite lookup_app_r, Nat.sub_diag by lia. simpl.
      rewrite lookup_app_r by lia.
      replace (length pre + 1 - length pre) with 1 by lia. simpl.
      destruct (edge G u v) as [a|]; simpl.
      + specialize (IH (pre ++ [u]) (acc + get_weight w a)%Z).
        rewrite length_app in IH. simpl in IH.
        replace (length pre + 1) with (S (length pre)) in IH by lia.
        replace (length q - 0) with (length q) in IH by lia.
        rewrite IH by (by rewrite <-app_assoc).
        destruct (path_weight G w (v :: q)); simpl; [|done]. f_equal; lia.
      + by apply foldl_Raise. }
  destruct (decide (1 < length p)) as [Hlen|Hlen].
  - specialize (Hgen p [] 0%Z eq_refl). simpl in Hgen. rewrite Hgen.
    by destruct (path_weight G w p).
  - destruct p as [|u [|v p]]; simpl in *; [done..|lia].
Qed.

End store_facts.

(** * Dijkstra's algorithm *)

Section dijkstra_fuel.
Context {node : Type} `{Countable node}.
Implicit Types G : graph node.
Implicit Types st : dstate node.

Lemma relax_Raise (weight : string) (v : node) e ue :
  relax weight v (Raise e) ue = Raise e.
Proof. done. Qed.

Lemma relax_dist_fringe weight v st ue st' :
  relax weight v (Ok st) ue = Ok st' →
  d_dist st' = d_dist st ∧ length (d_fringe st') ≤ S (length (d_fringe st)).
Proof.
  unfold relax. simpl.
  destruct (d_dist st !! v) as [dv|]; simpl; [|done].
  destruct (d_dist st !! ue.1) as [du|].
  { case_match; [done|]. intros [= <-]. auto. }
  case_match; [|intros [= <-]; auto].
  destruct (d_paths st !! v) as [pv|]; simpl; [|done].
  intros [= <-]. simpl. unfold heappush. rewrite length_app. simpl. split; [done|lia].
Qed.

Lemma relax_fold_dist_fringe weight v items st st' :
  foldl (relax weight v) (Ok st) items = Ok st' →
  d_dist st' = d_dist st ∧
  length (d_fringe st') ≤ length (d_fringe st) + length items.
Proof.
  revert st. induction items as [|ue items IH]; intros st; simpl.
  - intros [= <-]. split; [done|lia].
  - destruct (relax weight v (Ok st) ue) as [st1|e] eqn:E.
    + intros [-> Hlen]%IH. apply relax_dist_fringe in E as [-> Hlen1].
      split; [done|lia].
    + rewrite foldl_Raise; [done|]. intros c. apply relax_Raise.
Qed.

Lemma length_adj G v :
  length (adj G v) =
  sum_list ((λ e, if decide (e.1.1 = v) then 1
                  else if negb (is_directed G) && bool_decide (e.1.2 = v)
                       then 1 else 0) <$> edge_list G).
Proof.
  unfold adj. induction (edge_list G) as [|e l IH]; csimpl; [done|].
  destruct (decide (e.1.1 = v)); simpl; [by rewrite IH|].
  destruct (negb (is_directed G) && bool_decide (e.1.2 = v)); simpl; by rewrite IH.
Qed.

Lemma pending_insert G dist v d :
  dist !! v = None →
  pending G (<[v := d]> dist) + length (adj G v) = pending G dist.
Proof.
  intros Hv. rewrite length_adj. unfold pending.
  induction (edge_list G) as [|[[x y] a] l IH]; csimpl; [done|].
  rewrite <-IH. clear IH. unfold slots. simpl.
  generalize (sum_list (slots (is_directed G) (<[v:=d]> dist) <$> l)).
  generalize (sum_list ((λ e, if decide (e.1.1 = v) then 1
                  else if negb (is_directed G) && bool_decide (e.1.2 = v)
                       then 1 else 0) <$> l)).
  intros n1 n2. unfold slots.
  destruct (is_directed G); simpl;
    destruct (decide (x = v)) as [->|Hx], (decide (y = v)) as [->|Hy];
    rewrite ?lookup_insert_eq, ?lookup_insert_ne, ?Hv by done;
    repeat case_bool_decide; simplify_eq; simpl;
    repeat case_match; simplify_eq; simpl; try lia; try done.
Qed.

Lemma pending_empty G : pending G ∅ ≤ 2 * length (edge_list G).
Proof.
  unfold pending. induction (edge_list G) as [|e l IH]; csimpl; [lia|].
  unfold slots at 1. rewrite lookup_empty.
  destruct (_ && _); lia.
Qed.

(** The loop does not depend on the fuel once it exceeds the potential:
    [dijkstra_loop] is the unbounded [while fringe]. *)
Lemma dijkstra_loop_fuel G target weight fuel n st :
  potential G st < fuel →
  dijkstra_loop (fuel + n) G target weight st = dijkstra_loop fuel G target weight st.
Proof.
  revert st. induction fuel as [|fuel IH]; intros st Hpot; [lia|].
  simpl. unfold potential in *.
  destruct (heappop (d_fringe st)) as [[[[d c'] v] fr]|] eqn:Hpop; [|done].
  apply heappop_length in Hpop.
  destruct (d_dist st !! v) as [dv|] eqn:Hv.
  - apply IH. simpl. lia.
  - simpl. destruct (decide (v = target)); [done|].
    destruct (foldl _ _ _) as [st'|e] eqn:Hfold; simpl; [|done].
    apply relax_fold_dist_fringe in Hfold as [Hd Hlen]. simpl in *.
    apply IH. rewrite Hd. pose proof (pending_insert G _ v d Hv). lia.
Qed.

End dijkstra_fuel.

Section dijkstra_correct.
Context {node : Type} `{Countable node}.
Variables (G : graph node) (source target : node) (weight : string).
Hypothesis Hsimple : simple_graph G.
Hypothesis Hnonneg : nonneg_weights G weight.
Implicit Types st : dstate node.

Let todo (v : node) (items : list (node * attr)) : node → node → attr → Prop :=
  λ v' u a, v' = v ∧ (u, a) ∈ items.
Let closed : node → node → attr → Prop := λ _ _ _, False.

Lemma dinv_initial :
  source ≠ target →
  dinv G source target weight closed
    (DState ∅ {[source := 0%Z]} {[source := [source]]} [(0%Z, 0, source)] 1).
Proof.
  intros Hne. split; simpl.
  - intros v d. by rewrite lookup_empty.
  - by rewrite lookup_singleton_eq.
  - intros v d [<- <-]%lookup_singleton_Some. done.
  - intros v d [<- <-]%lookup_singleton_Some. exists [].
    rewrite lookup_singleton_eq. simpl. split_and!; try done.
    + apply NoDup_singleton.
    + by intros x ?%elem_of_nil.
  - intros v Hv%lookup_singleton_None. by rewrite lookup_singleton_ne.
  - intros e ->%list_elem_of_singleton. simpl. exists 0%Z.
    by rewrite lookup_singleton_eq.
  - intros v d [<- <-]%lookup_singleton_Some _. exists 0.
    by apply list_elem_of_singleton.
  - intros v dv u a. by rewrite lookup_empty.
  - intros v dv e. by rewrite lookup_empty.
  - by rewrite lookup_empty.
Qed.

Lemma dinv_update st v dv u a items pv :
  dinv G source target weight (todo v ((u, a) :: items)) st →
  d_dist st !! v = Some dv →
  (∀ x dx, d_dist st !! x = Some dx → (dx ≤ dv)%Z) →
  edge G v u = Some a →
  d_dist st !! u = None →
  (∀ su, d_seen st !! u = Some su → (dv + get_weight weight a < su)%Z) →
  d_paths st !! v = Some pv →
  dinv G source target weight (todo v items)
    (DState (d_dist st) (<[u := (dv + get_weight weight a)%Z]> (d_seen st))
       (<[u := pv ++ [u]]> (d_paths st))
       (heappush (d_fringe st) ((dv + get_weight weight a)%Z, d_c st, u))
       (S (d_c st))).
Proof.
  intros Hinv Hv Hmax He Hu Hlt Hpv.
  pose proof (nonneg_weights_edge _ _ _ _ _ Hnonneg He) as HW.
  pose proof (di_dist_seen _ _ _ _ _ _ Hinv _ _ Hv) as Hsv.
  pose proof (di_nonneg _ _ _ _ _ _ Hinv _ _ Hsv) as Hdv.
  split; simpl.
  - intros v' d Hv'. rewrite lookup_insert_ne by congruence.
    by apply (di_dist_seen _ _ _ _ _ _ Hinv).
  - destruct (decide (u = source)) as [->|Hne].
    + specialize (Hlt _ (di_source _ _ _ _ _ _ Hinv)). lia.
    + rewrite lookup_insert_ne by done. apply (di_source _ _ _ _ _ _ Hinv).
  - intros v' d. rewrite lookup_insert. case_decide.
    + intros [= <-]. lia.
    + apply (di_nonneg _ _ _ _ _ _ Hinv).
  - intros v' d. rewrite !lookup_insert. case_decide as Hvu.
    + subst v'. intros [= <-].
      destruct (di_paths _ _ _ _ _ _ Hinv _ _ Hsv) as (p0 & Hp0 & Hnd & Hsub & Hhd & Hw).
      assert (pv = p0 ++ [v]) as -> by congruence. exists (p0 ++ [v]).
      assert (∀ x, x ∈ p0 ++ [v] → is_Some (d_dist st !! x)) as Hsub'.
      { intros x [?| ->%list_elem_of_singleton]%elem_of_app; eauto. }
      split_and!; [done| |done| |].
      * apply NoDup_app. split_and!; [done| |apply NoDup_singleton].
        intros x Hx ->%list_elem_of_singleton.
        destruct (Hsub' _ Hx) as [? ?]. congruence.
      * destruct p0; done.
      * rewrite <-app_assoc. simpl. rewrite path_weight_snoc, Hw. simpl.
        by rewrite He.
    + intros Hs. destruct (di_paths _ _ _ _ _ _ Hinv _ _ Hs) as (p0 & ?). eauto.
  - intros v'. rewrite !lookup_insert. case_decide; [done|].
    apply (di_paths_dom _ _ _ _ _ _ Hinv).
  - intros e. unfold heappush. rewrite elem_of_app, list_elem_of_singleton.
    intros [He'| ->]; simpl.
    + destruct (di_fringe_seen _ _ _ _ _ _ Hinv _ He') as (d' & Hd' & Hle).
      rewrite lookup_insert. case_decide as Hvu.
      * rewrite <-Hvu in Hd'. specialize (Hlt _ Hd'). eexists. split; [done|lia].
      * eauto.
    + rewrite lookup_insert_eq. eexists. split; [done|lia].
  - intros v' d. rewrite lookup_insert. unfold heappush. case_decide as Hvu.
    + subst v'. intros [= <-] _. exists (d_c st).
      apply elem_of_app. right. by apply list_elem_of_singleton.
    + intros Hs Hd. destruct (di_seen_fringe _ _ _ _ _ _ Hinv _ _ Hs Hd) as [c' Hin].
      exists c'. apply elem_of_app. by left.
  - intros v' dv' u' a' Hv' He'.
    destruct (di_closed _ _ _ _ _ _ Hinv _ _ _ _ Hv' He') as [[-> Hin]|(du & Hdu & Hle)].
    + apply elem_of_cons in Hin as [[= -> ->]|Hin]; [|by left].
      right. rewrite lookup_insert_eq. eexists. split; [done|].
      assert (dv' = dv) as -> by congruence. lia.
    + right. rewrite lookup_insert. case_decide as Hvu.
      * subst u'. specialize (Hlt _ Hdu). eexists. split; [done|lia].
      * eauto.
  - intros v' dv' e Hv'. unfold heappush.
    rewrite elem_of_app, list_elem_of_singleton. intros [He'| ->]; simpl.
    + by apply (di_mono _ _ _ _ _ _ Hinv _ _ _ Hv').
    + specialize (Hmax _ _ Hv'). lia.
  - apply (di_target _ _ _ _ _ _ Hinv).
Qed.

Lemma dinv_skip st v dv u a items du :
  dinv G source target weight (todo v ((u, a) :: items)) st →
  d_dist st !! v = Some dv →
  d_seen st !! u = Some du → (du ≤ dv + get_weight weight a)%Z →
  dinv G source target weight (todo v items) st.
Proof.
  intros Hinv Hv Hu Hle. destruct Hinv. split; try done.
  intros v' dv' u' a' Hv' He'.
  destruct (di_closed0 _ _ _ _ Hv' He') as [[-> Hin]|?]; [|by right].
  apply elem_of_cons in Hin as [[= -> ->]|Hin]; [|by left].
  right. exists du. split; [done|]. assert (dv' = dv) as -> by congruence. lia.
Qed.

Lemma relax_step st v dv ue items :
  dinv G source target weight (todo v (ue :: items)) st →
  d_dist st !! v = Some dv →
  (∀ x dx, d_dist st !! x = Some dx → (dx ≤ dv)%Z) →
  edge G v ue.1 = Some ue.2 →
  ∃ st', relax weight v (Ok st) ue = Ok st' ∧
         dinv G source target weight (todo v items) st' ∧
         d_dist st' = d_dist st.
Proof.
  destruct ue as [u a]. simpl. intros Hinv Hv Hmax He.
  pose proof (nonneg_weights_edge _ _ _ _ _ Hnonneg He) as HW.
  pose proof (di_dist_seen _ _ _ _ _ _ Hinv _ _ Hv) as Hsv.
  destruct (di_paths _ _ _ _ _ _ Hinv _ _ Hsv) as (p0 & Hp0 & _).
  unfold relax. simpl. rewrite Hv. simpl.
  destruct (d_dist st !! u) as [du|] eqn:Hu.
  - pose proof (Hmax _ _ Hu). rewrite (proj2 (Z.ltb_ge _ _)) by lia.
    exists st. split_and!; [done| |done].
    eapply dinv_skip; [done..|by apply (di_dist_seen _ _ _ _ _ _ Hinv)|lia].
  - destruct (d_seen st !! u) as [su|] eqn:Hs.
    + destruct (Z.ltb_spec (dv + get_weight weight a) su) as [Hlt|Hge].
      * rewrite Hp0. simpl. eexists. split_and!; [done| |done].
        apply dinv_update; try done. intros su'. rewrite Hs. intros [= <-]. done.
      * exists st. split_and!; [done| |done]. by eapply dinv_skip.
    + rewrite Hp0. simpl. eexists. split_and!; [done| |done].
      apply dinv_update; try done. intros su'. by rewrite Hs.
Qed.

Lemma relax_fold items : ∀ st v dv,
  dinv G source target weight (todo v items) st →
  d_dist st !! v = Some dv →
  (∀ x dx, d_dist st !! x = Some dx → (dx ≤ dv)%Z) →
  (∀ ue, ue ∈ items → edge G v ue.1 = Some ue.2) →
  ∃ st', foldl (relax weight v) (Ok st) items = Ok st' ∧
         dinv G source target weight closed st' ∧
         d_dist st' = d_dist st.
Proof.
  induction items as [|ue items IH]; intros st v dv Hinv Hv Hmax Hedges; simpl.
  - exists st. split_and!; [done| |done]. destruct Hinv. split; try done.
    intros v' dv' u a Hv' He'.
    destruct (di_closed0 _ _ _ _ Hv' He') as [[_ ?%elem_of_nil]|?]; [done|by right].
  - destruct (relax_step st v dv ue items Hinv Hv Hmax) as (st1 & -> & Hinv1 & Hd1).
    { apply Hedges. left. }
    destruct (IH st1 v dv Hinv1) as (st' & -> & Hinv' & Hd').
    + by rewrite Hd1.
    + intros x dx. rewrite Hd1. apply Hmax.
    + intros ue' Hin. apply Hedges. by right.
    + exists st'. split_and!; [done..|congruence].
Qed.

(** Every path from the source is bounded below by the distance of its end
    when that is final, and by some fringe entry when it is not. *)
Lemma dinv_bound st q : ∀ y z,
  dinv G source target weight closed st →
  head q = Some source → last q = Some y →
  path_weight G weight q = Some z →
  match d_dist st !! y with
  | Some dy => (dy ≤ z)%Z
  | None => ∃ e, e ∈ d_fringe st ∧ (e.1.1 ≤ z)%Z
  end.
Proof.
  induction q as [|y' q IH] using rev_ind; intros y z Hinv Hhd Hlast Hw; [done|].
  rewrite last_snoc in Hlast. injection Hlast as ->.
  destruct q as [|x q' _] using rev_ind.
  - simpl in *. injection Hhd as ->. rewrite path_weight_singleton in Hw.
    injection Hw as <-.
    destruct (d_dist st !! source) as [dy|] eqn:Hd.
    + apply (di_dist_seen _ _ _ _ _ _ Hinv) in Hd.
      rewrite (di_source _ _ _ _ _ _ Hinv) in Hd. injection Hd as <-. lia.
    + destruct (di_seen_fringe _ _ _ _ _ _ Hinv _ _ (di_source _ _ _ _ _ _ Hinv) Hd)
        as [c' Hin].
      eexists. split; [done|]. simpl. lia.
  - rewrite <-app_assoc in Hw. simpl in Hw. rewrite path_weight_snoc in Hw.
    destruct (path_weight G weight (q' ++ [x])) as [z'|] eqn:Hw'; simpl in Hw; [|done].
    destruct (edge G x y) as [a|] eqn:He; simpl in Hw; [|done].
    injection Hw as <-.
    pose proof (nonneg_weights_edge _ _ _ _ _ Hnonneg He) as HW.
    assert (head (q' ++ [x]) = Some source) as Hhd' by (by destruct q').
    specialize (IH x z' Hinv Hhd' (last_snoc _ _) eq_refl).
    destruct (d_dist st !! x) as [dx|] eqn:Hx.
    + destruct (di_closed _ _ _ _ _ _ Hinv _ _ _ _ Hx He) as [[]|(du & Hdu & Hle)].
      destruct (d_dist st !! y) as [dy|] eqn:Hy.
      * apply (di_dist_seen _ _ _ _ _ _ Hinv) in Hy.
        assert (dy = du) as -> by congruence. lia.
      * destruct (di_seen_fringe _ _ _ _ _ _ Hinv _ _ Hdu Hy) as [c' Hin].
        eexists. split; [done|]. simpl. lia.
    + destruct IH as (e & Hin & Hle).
      destruct (d_dist st !! y) as [dy|] eqn:Hy.
      * pose proof (di_mono _ _ _ _ _ _ Hinv _ _ _ Hy Hin). lia.
      * exists e. split; [done|lia].
Qed.

Lemma dinv_pop_stale st d c' v fr dv :
  dinv G source target weight closed st →
  heappop (d_fringe st) = Some ((d, c', v), fr) →
  d_dist st !! v = Some dv →
  dinv G source target weight closed
    (DState (d_dist st) (d_seen st) (d_paths st) fr (d_c st)).
Proof.
  intros Hinv Hpop Hv. destruct Hinv. split; simpl; try done.
  - intros e He. apply di_fringe_seen0. by eapply heappop_rest.
  - intros v' d' Hs Hd. destruct (di_seen_fringe0 _ _ Hs Hd) as [c'' Hin].
    apply (heappop_in _ _ _ _ Hpop) in Hin as [[= -> -> ->]|Hin]; [congruence|].
    by exists c''.
  - intros v' dv' e Hv' He. apply (di_mono0 _ _ _ Hv'). by eapply heappop_rest.
Qed.

Lemma popped_seen st d c' v fr :
  dinv G source target weight closed st →
  heappop (d_fringe st) = Some ((d, c', v), fr) →
  d_dist st !! v = None →
  d_seen st !! v = Some d.
Proof.
  intros Hinv Hpop Hv.
  destruct (di_fringe_seen _ _ _ _ _ _ Hinv _ (heappop_elem _ _ _ Hpop))
    as (d' & Hd' & Hle). simpl in *.
  destruct (di_seen_fringe _ _ _ _ _ _ Hinv _ _ Hd' Hv) as [c'' Hin].
  pose proof (heappop_min _ _ _ _ Hpop Hin). simpl in *.
  assert (d = d') as -> by lia. done.
Qed.

Lemma dinv_pop_final st d c' v fr :
  dinv G source target weight closed st →
  heappop (d_fringe st) = Some ((d, c', v), fr) →
  d_dist st !! v = None →
  v ≠ target →
  dinv G source target weight (todo v (adj G v))
    (DState (<[v := d]> (d_dist st)) (d_seen st) (d_paths st) fr (d_c st)).
Proof.
  intros Hinv Hpop Hv Hvt. pose proof (popped_seen _ _ _ _ _ Hinv Hpop Hv) as Hs.
  destruct Hinv. split; simpl; try done.
  - intros v' d'. rewrite lookup_insert. case_decide; [congruence|auto].
  - intros v' d' Hs'. destruct (di_paths0 _ _ Hs') as (p & ? & ? & Hsub & ? & ?).
    exists p. split_and!; try done. intros x Hx. rewrite lookup_insert.
    case_decide; [done|auto].
  - intros e He. apply di_fringe_seen0. by eapply heappop_rest.
  - intros v' d'. rewrite lookup_insert. case_decide; [done|].
    intros Hs' Hd. destruct (di_seen_fringe0 _ _ Hs' Hd) as [c'' Hin].
    apply (heappop_in _ _ _ _ Hpop) in Hin as [[= -> -> ->]|Hin]; [done|].
    by exists c''.
  - intros v' dv' u a. rewrite lookup_insert. case_decide as Hvv.
    + subst v'. intros _ He. left. split; [done|]. by apply adj_edge.
    + intros Hv' He. destruct (di_closed0 _ _ _ _ Hv' He) as [[]|?]. by right.
  - intros v' dv' e. rewrite lookup_insert. case_decide as Hvv.
    + intros [= <-] He. apply (heappop_min _ _ _ e Hpop). by eapply heappop_rest.
    + intros Hv' He. apply (di_mono0 _ _ _ Hv'). by eapply heappop_rest.
  - by rewrite lookup_insert_ne.
Qed.

Lemma dijkstra_loop_correct fuel : ∀ st,
  dinv G source target weight closed st →
  potential G st < fuel →
  ∃ r, dijkstra_loop fuel G target weight st = Ok r ∧
       dpost G source target weight r.
Proof.
  induction fuel as [|fuel IH]; intros st Hinv Hpot; [lia|].
  simpl. unfold potential in *.
  destruct (heappop (d_fringe st)) as [[[[d c'] v] fr]|] eqn:Hpop.
  - pose proof (heappop_length _ _ _ Hpop) as Hlen.
    destruct (d_dist st !! v) as [dv|] eqn:Hv.
    + apply IH; [by eapply dinv_pop_stale|]. simpl. lia.
    + simpl. pose proof (popped_seen _ _ _ _ _ Hinv Hpop Hv) as Hs.
      destruct (decide (v = target)) as [->|Hvt].
      * eexists. split; [done|]. unfold dpost. simpl. rewrite lookup_insert_eq.
        destruct (di_paths _ _ _ _ _ _ Hinv _ _ Hs) as (p & Hp & Hnd & _ & Hhd & Hw).
        exists (p ++ [target]). split_and!; try done; [apply last_snoc|].
        intros q z Hq1 Hq2 Hqw.
        pose proof (dinv_bound st q target z Hinv Hq1 Hq2 Hqw) as Hb.
        rewrite Hv in Hb. destruct Hb as (e & Hin & Hle).
        pose proof (heappop_min _ _ _ _ Hpop Hin). simpl in *. lia.
      * pose proof (dinv_pop_final _ _ _ _ _ Hinv Hpop Hv Hvt) as Hinv1.
        destruct (relax_fold (adj G v) _ v d Hinv1) as (st' & Hfold & Hinv' & Hd').
        { simpl. apply lookup_insert_eq. }
        { simpl. intros x dx. rewrite lookup_insert. case_decide; [intros [= <-]; lia|].
          intros Hx. apply (di_mono _ _ _ _ _ _ Hinv _ _ _ Hx (heappop_elem _ _ _ Hpop)). }
        { intros [u a] Hin. by apply adj_edge. }
        rewrite Hfold. simpl. apply IH; [done|].
        apply relax_fold_dist_fringe in Hfold as [_ Hlen']. simpl in *.
        rewrite Hd'. pose proof (pending_insert G _ v d Hv). lia.
  - apply heappop_None in Hpop. eexists. split; [done|]. unfold dpost. simpl.
    rewrite (di_target _ _ _ _ _ _ Hinv). split.
    + destruct (d_seen st !! target) as [d|] eqn:Hs.
      * destruct (di_seen_fringe _ _ _ _ _ _ Hinv _ _ Hs (di_target _ _ _ _ _ _ Hinv))
          as [c' Hin].
        rewrite Hpop in Hin. by apply elem_of_nil in Hin.
      * by apply (di_paths_dom _ _ _ _ _ _ Hinv).
    + intros q Hq1 Hq2. destruct (path_weight G weight q) as [z|] eqn:Hqw; [|done].
      pose proof (dinv_bound st q target z Hinv Hq1 Hq2 Hqw) as Hb.
      rewrite (di_target _ _ _ _ _ _ Hinv) in Hb. destruct Hb as (e & Hin & _).
      rewrite Hpop in Hin. by apply elem_of_nil in Hin.
Qed.

(** [single_source_dijkstra] returns, and what it returns about [target]
    is a shortest path of [G] or the fact that there is none. *)
Lemma single_source_dijkstra_correct :
  ∃ r, single_source_dijkstra G source target weight = Ok r ∧
       dpost G source target weight r.
Proof.
  unfold single_source_dijkstra. destruct (decide (source = target)) as [<-|Hne].
  - eexists. split; [done|]. unfold dpost. simpl. rewrite lookup_singleton_eq.
    exists [source]. rewrite lookup_singleton_eq. split_and!; try done.
    + apply NoDup_singleton.
    + intros q z _ _. by apply path_weight_nonneg.
  - apply dijkstra_loop_correct; [by apply dinv_initial|].
    unfold potential. simpl. pose proof (pending_empty G). lia.
Qed.

End dijkstra_correct.

(** * Pruning and restoring *)

Section prune_facts.
Context {node : Type} `{Countable node}.
Implicit Types G : graph node.
Implicit Types rem es : list (node * node * attr).

Lemma run_bind {A C} (m : M A) (k : A → M C) G a G1 :
  m G = (Ok a, G1) → bind m k G = k a G1.
Proof. unfold bind. by intros ->. Qed.

Lemma pruned_initial G0 G :
  same_graph G G0 → simple_graph G → pruned G0 G [] (λ _ _, False).
Proof.
  intros [Hd He] Hs. split; try done.
  - by intros e ?%elem_of_nil.
  - intros u v a. by rewrite He.
  - intros u v. rewrite He. auto.
  - intros u v a. rewrite He. congruence.
Qed.

Lemma pruned_weaken G0 G rem (R R' : node → node → Prop) :
  (∀ x y, R x y → R' x y) →
  (∀ x y, R' x y → edge G x y = None) →
  pruned G0 G rem R → pruned G0 G rem R'.
Proof.
  intros HR Hcut []. split; try done.
  intros u v Hn. destruct (pr_kept0 _ _ Hn); auto.
Qed.

Lemma pruned_remove G0 G rem R u v a :
  pruned G0 G rem R → edge G0 u v = Some a →
  pruned G0 (remove_edge G u v) (rem ++ [(u, v, a)])
    (λ x y, R x y ∨ same_edge (is_directed G0) u v x y = true).
Proof.
  intros [] Huv. split.
  - done.
  - by apply simple_remove_edge.
  - intros e [?| ->%list_elem_of_singleton]%elem_of_app; auto.
  - intros x y b. rewrite edge_remove_edge. case_match; [done|]. auto.
  - intros x y. rewrite edge_remove_edge, pr_directed0.
    intros [HR| ->]; [|done]. rewrite (pr_cut0 _ _ HR). by case_match.
  - intros x y. rewrite edge_remove_edge, pr_directed0.
    destruct (same_edge _ u v x y) eqn:E; [auto|].
    intros Hn. destruct (pr_kept0 _ _ Hn); auto.
  - intros x y b Hxy. rewrite edge_remove_edge, pr_directed0.
    destruct (same_edge _ u v x y) eqn:E.
    + intros _. exists u, v. split; [|done].
      rewrite (edge_same _ _ _ _ _ E) in Hxy. assert (a = b) as -> by congruence.
      apply elem_of_app. right. by apply list_elem_of_singleton.
    + intros Hn. destruct (pr_recorded0 _ _ _ Hxy Hn) as (x' & y' & Hin & E').
      exists x', y'. split; [|done]. apply elem_of_app. by left.
Qed.

Lemma pruned_remove_edges G0 es : ∀ G rem R,
  pruned G0 G rem R →
  (∀ e, e ∈ es → edge G0 e.1.1 e.1.2 = Some e.2) →
  pruned G0 (foldl (λ G e, remove_edge G e.1.1 e.1.2) G es) (rem ++ es)
    (λ x y, R x y ∨
            ∃ e, e ∈ es ∧ same_edge (is_directed G0) e.1.1 e.1.2 x y = true).
Proof.
  induction es as [|[[u v] a] es IH]; intros G rem R Hpr Hes; simpl.
  - rewrite app_nil_r. eapply pruned_weaken; [| |done].
    + auto.
    + intros x y [HR|(e & []%elem_of_nil & _)]. by apply (pr_cut _ _ _ _ Hpr).
  - assert (edge G0 u v = Some a) as Huv by (apply (Hes (u, v, a)); left).
    pose proof (pruned_remove _ _ _ _ _ _ _ Hpr Huv) as Hpr1.
    apply IH in Hpr1; [|intros e He; apply Hes; by right].
    rewrite <-app_assoc in Hpr1. simpl in Hpr1.
    eapply pruned_weaken; [| |done].
    + intros x y [[HR|E]|(e & Hin & E)]; [by left|right..].
      * exists (u, v, a). split; [left|done].
      * exists e. split; [by right|done].
    + intros x y Hxy. apply (pr_cut _ _ _ _ Hpr1).
      destruct Hxy as [HR|(e & [->|Hin]%elem_of_cons & E)]; eauto.
Qed.

Lemma edge_remove_edges_Some es : ∀ G x y a,
  edge (foldl (λ G e, remove_edge G e.1.1 e.1.2) G es) x y = Some a →
  edge G x y = Some a.
Proof.
  induction es as [|e es IH]; intros G x y a; simpl; [done|].
  intros Hx%IH. rewrite edge_remove_edge in Hx. by case_match.
Qed.

(** Lines 119-121 put back what was removed. *)
Lemma restore_pruned G0 rem : ∀ G R,
  pruned G0 G rem R →
  same_graph (foldl (λ G e, add_edge G e.1.1 e.1.2 e.2) G rem) G0 ∧
  simple_graph (foldl (λ G e, add_edge G e.1.1 e.1.2 e.2) G rem).
Proof.
  induction rem as [|[[u v] a] rem IH]; intros G R Hpr; simpl.
  - destruct Hpr. split; [|done]. split; [done|]. intros x y.
    destruct (edge G x y) as [b|] eqn:E; [by erewrite pr_sub0|].
    destruct (edge G0 x y) as [b|] eqn:E0; [|done].
    destruct (pr_recorded0 _ _ _ E0 E) as (? & ? & []%elem_of_nil & _).
  - apply (IH _ (λ x y, edge (add_edge G u v a) x y = None)).
    assert (edge G0 u v = Some a) as Huv
      by (apply (pr_removed _ _ _ _ Hpr (u, v, a)); left).
    assert (a ∪ default ∅ (edge G u v) = a) as Hua.
    { destruct (edge G u v) as [b|] eqn:E; simpl.
      - apply (pr_sub _ _ _ _ Hpr) in E. assert (b = a) as -> by congruence.
        apply (idemp_L (∪)).
      - apply (right_id_L ∅ (∪)). }
    destruct Hpr. split.
    + by rewrite is_directed_add_edge.
    + by apply simple_add_edge.
    + intros e He. apply pr_removed0. by right.
    + intros x y b. rewrite edge_add_edge, Hua, pr_directed0.
      destruct (same_edge _ u v x y) eqn:E; [|auto].
      intros [= <-]. by rewrite (edge_same _ _ _ _ _ E).
    + done.
    + auto.
    + intros x y b Hxy. rewrite edge_add_edge, pr_directed0.
      destruct (same_edge _ u v x y) eqn:E; [done|].
      intros Hn. destruct (pr_recorded0 _ _ _ Hxy Hn)
        as (x' & y' & [[= -> -> ->]|Hin]%elem_of_cons & E'); [congruence|eauto].
Qed.

Lemma pruned_iff G0 G rem (R R' : node → node → Prop) :
  (∀ x y, R x y ↔ R' x y) → pruned G0 G rem R → pruned G0 G rem R'.
Proof.
  intros HR Hpr. eapply pruned_weaken; [| |done].
  - intros x y. apply HR.
  - intros x y HR'%HR. by apply (pr_cut _ _ _ _ Hpr).
Qed.

Lemma is_directed_remove_edges es : ∀ G,
  is_directed (foldl (λ G e, remove_edge G e.1.1 e.1.2) G es) = is_directed G.
Proof. induction es as [|e es IH]; intros G; simpl; [done|]. by rewrite IH. Qed.

Lemma prune_shared_ok G0 root j c rem G R :
  pruned G0 G rem R →
  (j < length c → root = take (j + 1) c → j + 1 < length c) →
  ∃ rem' G',
    prune_shared root j rem c G = (Ok rem', G') ∧
    pruned G0 G' rem'
      (λ x y, R x y ∨
              ∃ cu cv, root = take (j + 1) c ∧ c !! j = Some cu ∧
                       c !! (j + 1) = Some cv ∧
                       same_edge (is_directed G0) cu cv x y = true).
Proof.
  intros Hpr Hbound. unfold prune_shared. case_decide as Hguard.
  - destruct Hguard as [Hj Hroot]. specialize (Hbound Hj Hroot).
    destruct (lookup_lt_is_Some_2 c j Hj) as [cu Hcu].
    destruct (lookup_lt_is_Some_2 c (j + 1) Hbound) as [cv Hcv].
    unfold bind, lift, index, get. rewrite Hcu, Hcv. simpl.
    unfold has_edge. destruct (edge G cu cv) as [a|] eqn:E.
    + rewrite bool_decide_eq_true_2 by eauto. simpl. eexists _, _. split; [done|].
      pose proof (pr_sub _ _ _ _ Hpr _ _ _ E) as E0.
      eapply pruned_iff; [|by apply pruned_remove]. simpl.
      intros x y. split; [intros [?|?]; [by left|right; by exists cu, cv]|].
      intros [?|(cu' & cv' & _ & ? & ? & ?)]; [by left|right].
      by simplify_eq.
    + rewrite bool_decide_eq_false_2 by (by intros [??]).
      eexists _, _. split; [done|]. eapply pruned_weaken; [| |done].
      * auto.
      * intros x y [HR|(cu' & cv' & _ & ? & ? & Hs)]; [by apply (pr_cut _ _ _ _ Hpr)|].
        simplify_eq. rewrite <-(pr_directed _ _ _ _ Hpr) in Hs.
        by rewrite (edge_same _ _ _ _ _ Hs).
  - eexists _, _. split; [done|]. eapply pruned_iff; [|done].
    intros x y. split; [auto|]. intros [?|(cu & cv & ? & Hcu & _)]; [done|].
    destruct Hguard. split; [|done]. by eapply lookup_lt_Some.
Qed.

Lemma prune_shared_all G0 root j cs : ∀ rem G R,
  pruned G0 G rem R →
  (∀ c, c ∈ cs → j < length c → root = take (j + 1) c → j + 1 < length c) →
  ∃ rem' G',
    for_each cs (prune_shared root j) rem G = (Ok rem', G') ∧
    pruned G0 G' rem'
      (λ x y, R x y ∨
              ∃ c cu cv, c ∈ cs ∧ root = take (j + 1) c ∧ c !! j = Some cu ∧
                         c !! (j + 1) = Some cv ∧
                         same_edge (is_directed G0) cu cv x y = true).
Proof.
  induction cs as [|c cs IH]; intros rem G R Hpr Hbound; simpl.
  - eexists _, _. split; [done|]. eapply pruned_iff; [|done].
    intros x y. split; [auto|]. by intros [?|(c & ? & ? & []%elem_of_nil & _)].
  - destruct (prune_shared_ok G0 root j c rem G R Hpr) as (rem1 & G1 & Hrun & Hpr1).
    { apply Hbound. left. }
    rewrite (run_bind _ _ _ _ _ Hrun).
    destruct (IH _ _ _ Hpr1) as (rem' & G' & Hrun' & Hpr').
    { intros c' Hc'. apply Hbound. by right. }
    eexists _, _. split; [done|]. eapply pruned_iff; [|done]. simpl.
    intros x y. split.
    + intros [[?|(cu & cv & ?)]|(c' & cu & cv & Hin & ?)]; [by left|right..].
      * exists c, cu, cv. split; [left|done].
      * exists c', cu, cv. split; [by right|done].
    + intros [?|(c' & cu & cv & [->|Hin]%elem_of_cons & ?)]; [by left; left|..].
      * left. right. eauto.
      * right. eauto 10.
Qed.

Lemma prune_root_ok G0 root rem n G R x :
  pruned G0 G rem R → root !! n = Some x →
  ∃ rem' G',
    prune_root root rem n G = (Ok rem', G') ∧
    pruned G0 G' rem' (λ u v, R u v ∨ u = x ∨ v = x).
Proof.
  intros Hpr Hx. unfold prune_root, bind, lift, index, get, remove_edges, modify.
  rewrite Hx. simpl. rewrite is_directed_remove_edges.
  set (outs := edges_iter G x).
  set (G1 := foldl (λ G e, remove_edge G e.1.1 e.1.2) G outs).
  assert (pruned G0 G1 (rem ++ outs)
    (λ u v, R u v ∨ ∃ e, e ∈ outs ∧
       same_edge (is_directed G0) e.1.1 e.1.2 u v = true)) as Hpr1.
  { apply pruned_remove_edges; [done|]. intros [[x' y] a].
    intros [-> Hin]%elem_of_edges_iter. simpl.
    apply (pr_sub _ _ _ _ Hpr), adj_edge; [by destruct Hpr|done]. }
  assert (∀ u v e, e ∈ outs →
    same_edge (is_directed G0) e.1.1 e.1.2 u v = true → u = x ∨ v = x) as Houts.
  { intros u v [[x' y] a] [-> _]%elem_of_edges_iter. simpl.
    intros [[-> _]|(_ & _ & ->)]%same_edge_true; auto. }
  assert (∀ v a, edge G x v = Some a → edge G1 x v = None) as Hout_cut.
  { intros v a Hv. apply (pr_cut _ _ _ _ Hpr1). right. exists (x, v, a).
    split; [|apply same_edge_refl]. apply elem_of_edges_iter. split; [done|].
    apply adj_edge; [by destruct Hpr|done]. }
  destruct (is_directed G) eqn:Hd.
  - set (ins := in_edges_iter G1 x).
    set (G2 := foldl (λ G e, remove_edge G e.1.1 e.1.2) G1 ins).
    eexists _, _. split; [done|].
    assert (pruned G0 G2 ((rem ++ outs) ++ ins)
      (λ u v, (R u v ∨ ∃ e, e ∈ outs ∧
                 same_edge (is_directed G0) e.1.1 e.1.2 u v = true) ∨
              ∃ e, e ∈ ins ∧
                 same_edge (is_directed G0) e.1.1 e.1.2 u v = true)) as Hpr2.
    { apply pruned_remove_edges; [done|]. intros [[x' y] a] Hin. simpl.
      apply (pr_sub _ _ _ _ Hpr1).
      by apply (in_edges_iter_edge G1 x); [destruct Hpr1|]. }
    eapply pruned_weaken; [| |done]; simpl.
    + intros u v [[?|(e & Hin & E)]|(e & Hin & E)]; [by left|right; eauto|right].
      destruct e as [[x' y] a]. apply elem_of_in_edges_iter in Hin as [Hy _].
      simpl in *. subst y. apply same_edge_true in E as [[-> ->]|(_ & -> & ->)]; auto.
    + intros u v [HR|[->| ->]].
      * apply (pr_cut _ _ _ _ Hpr2). by left; left.
      * destruct (edge G2 x v) as [a|] eqn:E; [|done].
        pose proof (edge_remove_edges_Some _ _ _ _ _ E) as E1.
        pose proof (edge_remove_edges_Some _ _ _ _ _ E1) as E0.
        by rewrite (Hout_cut _ _ E0) in E1.
      * destruct (edge G2 u x) as [a|] eqn:E; [|done].
        pose proof (edge_remove_edges_Some _ _ _ _ _ E) as E1.
        rewrite <-E. apply (pr_cut _ _ _ _ Hpr2). right. exists (u, x, a).
        split; [|apply same_edge_refl]. apply edge_in_edges_iter; [|done].
        unfold G1. by rewrite is_directed_remove_edges.
  - eexists _, _. split; [done|].
    eapply pruned_weaken; [| |done]; simpl.
    + intros u v [?|(e & Hin & E)]; [by left|right; eauto].
    + intros u v [HR|[->| ->]].
      * apply (pr_cut _ _ _ _ Hpr1). by left.
      * destruct (edge G1 x v) as [a|] eqn:E; [|done].
        pose proof (edge_remove_edges_Some _ _ _ _ _ E) as E0.
        by rewrite (Hout_cut _ _ E0) in E.
      * destruct (edge G1 u x) as [a|] eqn:E; [|done].
        pose proof (edge_remove_edges_Some _ _ _ _ _ E) as E0.
        rewrite (edge_undirected G x u Hd) in E0. rewrite <-E.
        assert (edge G1 u x = edge G1 x u) as ->;
          [|by rewrite (Hout_cut _ _ E0)].
        apply edge_undirected. unfold G1. by rewrite is_directed_remove_edges.
Qed.

Lemma prune_root_all G0 root ns : ∀ rem G R,
  pruned G0 G rem R →
  (∀ n, n ∈ ns → n < length root) →
  ∃ rem' G',
    for_each ns (prune_root root) rem G = (Ok rem', G') ∧
    pruned G0 G' rem'
      (λ u v, R u v ∨ ∃ x n, n ∈ ns ∧ root !! n = Some x ∧ (u = x ∨ v = x)).
Proof.
  induction ns as [|n ns IH]; intros rem G R Hpr Hbound; simpl.
  - eexists _, _. split; [done|]. eapply pruned_iff; [|done].
    intros x y. split; [auto|]. by intros [?|(? & ? & []%elem_of_nil & _)].
  - destruct (lookup_lt_is_Some_2 root n) as [x Hx]; [apply Hbound; left|].
    destruct (prune_root_ok G0 root rem n G R x Hpr Hx) as (rem1 & G1 & Hrun & Hpr1).
    rewrite (run_bind _ _ _ _ _ Hrun).
    destruct (IH _ _ _ Hpr1) as (rem' & G' & Hrun' & Hpr').
    { intros n' Hn'. apply Hbound. by right. }
    eexists _, _. split; [done|]. eapply pruned_iff; [|done]. simpl.
    intros u v. split.
    + intros [[?|?]|(x' & n' & Hin & ?)]; [by left|right..].
      * exists x, n. split; [left|done].
      * exists x', n'. split; [by right|done].
    + intros [?|(x' & n' & [->|Hin]%elem_of_cons & Hx' & ?)]; [by left; left|..].
      * left. right. by simplify_eq.
      * right. eauto 10.
Qed.

End prune_facts.

(** * The controller *)

Section good_paths.
Context {node : Type} `{Countable node}.
Implicit Types G : graph node.
Implicit Types p q X c P : list node.

Lemma path_weight_edge G w p : ∀ i z u v,
  path_weight G w p = Some z → p !! i = Some u → p !! (i + 1) = Some v →
  is_Some (edge G u v).
Proof.
  induction p as [|x [|y p] IH]; intros i z u v Hw Hu Hv; [done| |].
  - destruct i; done.
  - rewrite path_weight_cons2 in Hw.
    destruct (edge G x y) as [a|] eqn:E; simpl in Hw; [|done].
    destruct (path_weight G w (y :: p)) as [z'|] eqn:E'; simpl in Hw; [|done].
    destruct i as [|i]; simpl in *.
    + simplify_eq. eauto.
    + by eapply (IH i).
Qed.

Lemma path_weight_split G w P j x l :
  path_weight G w P = Some l → P !! j = Some x →
  ∃ z1 z2, path_weight G w (take (j + 1) P) = Some z1 ∧
           path_weight G w (drop j P) = Some z2 ∧ l = (z1 + z2)%Z.
Proof.
  intros Hw Hx. rewrite <-(take_drop_middle P j x Hx), path_weight_app in Hw.
  replace (j + 1) with (S j) by lia.
  rewrite (take_S_r P j x Hx), (drop_S P x j Hx).
  destruct (path_weight G w (take j P ++ [x])) as [z1|]; simpl in Hw; [|done].
  destruct (path_weight G w (x :: drop (S j) P)) as [z2|]; simpl in Hw; [|done].
  exists z1, z2. split_and!; congruence.
Qed.

Lemma explicit_weight_path_weight G w p z :
  explicit_weight G w p = Some z → path_weight G w p = Some z.
Proof.
  revert z. induction p as [|x [|y p] IH]; intros z; [done..|].
  rewrite path_weight_cons2.
  change (explicit_weight G w (x :: y :: p)) with
    (match edge G x y ≫= (λ a, a !! w), explicit_weight G w (y :: p) with
     | Some x, Some z => Some (x + z)%Z
     | _, _ => None
     end).
  destruct (edge G x y) as [a|]; simpl; [|done].
  destruct (a !! w) as [k|] eqn:Hk; [|done].
  destruct (explicit_weight G w (y :: p)) as [z'|]; [|done].
  intros [= <-]. rewrite (IH z' eq_refl). simpl. unfold get_weight. by rewrite Hk.
Qed.

Lemma good_target_last G s t w P l j :
  good G s t w P l → P !! j = Some t → j = pred (length P).
Proof.
  intros (_ & Hlast & Hnd & _) Hj. rewrite last_lookup in Hlast.
  by eapply NoDup_lookup.
Qed.

Lemma good_spur_node G s t w P l j :
  good G s t w P l → j < length P - 1 → ∃ x, P !! j = Some x ∧ x ≠ t.
Proof.
  intros Hgood Hj. destruct (lookup_lt_is_Some_2 P j) as [x Hx]; [lia|].
  exists x. split; [done|]. intros ->.
  pose proof (good_target_last _ _ _ _ _ _ _ Hgood Hx). lia.
Qed.

Lemma good_extension G s t w c X lc n :
  good G s t w c lc → NoDup X → last X = Some t → take n X = c → X = c.
Proof.
  intros (_ & Hlast & _ & _) Hnd HX Hc.
  assert (X = c ++ drop n X) as HXc by (by rewrite <-Hc, take_drop).
  revert HXc. generalize (drop n X). intros r ->.
  destruct r as [|y r]; [by rewrite app_nil_r|]. exfalso.
  apply NoDup_app in Hnd as (_ & Hdisj & _).
  apply (Hdisj t); [by apply last_Some_elem_of|].
  rewrite last_app_cons in HX. by apply last_Some_elem_of.
Qed.

Lemma good_prefix_lt G s t w c X lc z n :
  good G s t w c lc → good G s t w X z → c ≠ X → take n c = take n X →
  n < length c ∧ n < length X.
Proof.
  intros Hc HX Hne Htake. split.
  - destruct (decide (n < length c)) as [|Hge]; [done|]. exfalso.
    rewrite (take_ge c) in Htake by lia. apply Hne. symmetry.
    destruct HX as (_ & ? & ? & _). by eapply good_extension.
  - destruct (decide (n < length X)) as [|Hge]; [done|]. exfalso.
    rewrite (take_ge X) in Htake by lia. apply Hne.
    destruct Hc as (_ & ? & ? & _). by eapply good_extension.
Qed.

Lemma good_head G s t w P l n : good G s t w P l → 0 < n → head (take n P) = Some s.
Proof. intros (Hhd & _) Hn. destruct P, n; simpl in *; done || lia. Qed.

Lemma good_length G s t w P l : s ≠ t → good G s t w P l → 1 < length P.
Proof.
  intros Hst (Hhd & Hlast & _). destruct P as [|x [|y P]]; simpl in *; [done| |lia].
  congruence.
Qed.

(** There is a longest prefix that a path outside [A] shares with [A]. *)
Lemma shares_longest G s t w A X z c lc :
  good G s t w X z → X ∉ A → c ∈ A → good G s t w c lc →
  ∃ j, shares A (j + 1) X ∧ ¬ shares A (j + 2) X.
Proof.
  intros HX HXA Hc Hgc.
  assert (∀ k j, j + k = length X → shares A (j + 1) X →
    ∃ j', shares A (j' + 1) X ∧ ¬ shares A (j' + 2) X) as Hind.
  { induction k as [|k IH]; intros j Hj Hsh.
    - exists j. split; [done|]. intros Hsh'%Exists_exists.
      destruct Hsh' as (c' & Hc' & Htake).
      rewrite !(take_ge X) in Htake by lia.
      apply HXA. destruct HX as (_ & ? & ? & _).
      assert (take (j + 2) c' ∈ A) as Hin; [|by rewrite Htake in Hin].
      rewrite take_ge; [done|].
      destruct (decide (length c' ≤ j + 2)); [done|].
      assert (length (take (j + 2) c') = length X) by (by rewrite Htake).
      rewrite length_take in *. lia.
    - destruct (decide (shares A (j + 2) X)) as [Hsh'|Hsh'].
      + apply (IH (j + 1)); [lia|]. by replace (j + 1 + 1) with (j + 2) by lia.
      + by exists j. }
  apply (Hind (length X) 0); [done|]. apply Exists_exists. exists c. split; [done|].
  destruct HX as (HhX & _), Hgc as (Hhc & _).
  destruct c, X; simplify_eq/=. done.
Qed.

End good_paths.

Section yen_facts.
Context {node : Type} `{Countable node}.
Variables (G0 : graph node) (s t : node) (weight : string).
Hypothesis Hsimple0 : simple_graph G0.
Hypothesis Hnonneg0 : nonneg_weights G0 weight.
Hypothesis Hst : s ≠ t.
Implicit Types G : graph node.
Implicit Types p q X c P : list node.
Implicit Types A : list (list node).

Lemma run_lift {T U} (r : result T) (k : T → M U) G (a : T) :
  r = Ok a → bind (lift r) k G = k a G.
Proof. by intros ->. Qed.

Lemma nonneg_weights_sub G :
  simple_graph G → (∀ u v a, edge G u v = Some a → edge G0 u v = Some a) →
  nonneg_weights G weight.
Proof.
  intros Hs Hsub. apply Forall_forall. intros [[x y] a] Hin. simpl.
  eapply nonneg_weights_edge; [done|]. apply Hsub. by apply find_edge_elem.
Qed.

(** What is left of a path that leaves the accepted ones right after the
    root survives the pruning. *)
Lemma suffix_survives A Gp rem root j X z z2 :
  pruned G0 Gp rem (spur_cut (is_directed G0) A root j) →
  good G0 s t weight X z → take (j + 1) X = root →
  ¬ shares A (j + 2) X →
  path_weight G0 weight (drop j X) = Some z2 →
  path_weight Gp weight (drop j X) = Some z2.
Proof.
  intros Hpr (_ & _ & Hnd & _) Hroot Hsh. apply path_weight_mono.
  intros i u v a Hu Hv He. rewrite lookup_drop in Hu, Hv.
  destruct (edge Gp u v) as [a'|] eqn:E.
  { apply (pr_sub _ _ _ _ Hpr) in E. congruence. }
  exfalso. destruct (pr_kept _ _ _ _ Hpr _ _ E) as [?|Hcut]; [congruence|].
  destruct Hcut as [(c & cu & cv & Hc & Hrc & Hcu & Hcv & Hs)|(x & n & Hn & Hx & Hor)].
  - assert (X !! j = Some cu) as HXj.
    { rewrite <-(lookup_take_lt X (j + 1)), Hroot, Hrc, lookup_take_lt by lia. done. }
    apply same_edge_true in Hs as [[-> ->]|(_ & -> & ->)].
    + pose proof (NoDup_lookup _ _ _ _ Hnd Hu HXj) as Hi.
      assert (i = 0) as -> by lia. replace (j + (0 + 1)) with (j + 1) in Hv by lia.
      apply Hsh, Exists_exists. exists c. split; [done|].
      replace (j + 2) with (S (j + 1)) by lia.
      rewrite (take_S_r c _ _ Hcv), (take_S_r X _ _ Hv). congruence.
    + pose proof (NoDup_lookup _ _ _ _ Hnd Hv HXj). lia.
  - assert (X !! n = Some x) as HXn.
    { rewrite <-(lookup_take_lt X (j + 1)), Hroot by lia. done. }
    destruct Hor as [-> | ->].
    + pose proof (NoDup_lookup _ _ _ _ Hnd Hu HXn). lia.
    + pose proof (NoDup_lookup _ _ _ _ Hnd Hv HXn). lia.
Qed.

(** A spur path found after the pruning continues the root to a loopless
    path that is not accepted yet. *)
Lemma splice_good A Gp rem P lP j x p d z1 :
  pruned G0 Gp rem (spur_cut (is_directed G0) A (take (j + 1) P) j) →
  good G0 s t weight P lP → P ∈ A → P !! j = Some x → x ≠ t →
  path_weight G0 weight (take (j + 1) P) = Some z1 →
  head p = Some x → last p = Some t → NoDup p →
  path_weight Gp weight p = Some d →
  good G0 s t weight (take j P ++ p) (z1 + d) ∧
  take (j + 1) (take j P ++ p) = take (j + 1) P ∧
  take j P ++ p ∉ A.
Proof.
  intros Hpr HP HPA Hx Hxt Hz1 Hhd Hlast Hnd Hd.
  pose proof (lookup_lt_Some _ _ _ Hx) as Hj.
  destruct p as [|x' p]; [done|]. injection Hhd as ->.
  destruct p as [|y p]; [simpl in Hlast; congruence|].
  assert (length (take j P) = j) as Hlen by (rewrite length_take; lia).
  assert (take (j + 1) (take j P ++ x :: y :: p) = take (j + 1) P) as Htake.
  { rewrite take_app, Hlen. replace (j + 1 - j) with 1 by lia.
    rewrite take_ge by lia. simpl.
    replace (j + 1) with (S j) by lia. by rewrite (take_S_r _ _ _ Hx). }
  assert (∀ i u v, (x :: y :: p) !! i = Some u → (x :: y :: p) !! (i + 1) = Some v →
    is_Some (edge Gp u v)) as Hedges.
  { intros i u v. by apply (path_weight_edge Gp weight _ i d). }
  split_and!; [|done|].
  - split_and!.
    + rewrite <-(good_head G0 s t weight _ _ (j + 1) HP) by lia.
      rewrite <-Htake. replace (j + 1) with (S j) by lia. by destruct (take j P).
    + by rewrite last_app_cons.
    + apply NoDup_app. split_and!; [|intros u Hu Hup|done].
      * destruct HP as (_ & _ & HndP & _).
        rewrite <-(take_drop j P) in HndP. by apply NoDup_app in HndP as [? _].
      * apply elem_of_take in Hu as (n & Hn & Hnj).
        apply list_elem_of_lookup in Hup as [i Hi].
        destruct i as [|i].
        -- simpl in Hi. injection Hi as ->.
           destruct HP as (_ & _ & HndP & _).
           pose proof (NoDup_lookup _ _ _ _ HndP Hn Hx). lia.
        -- destruct (lookup_lt_is_Some_2 (x :: y :: p) i) as [u' Hu'].
           { apply lookup_lt_Some in Hi. simpl in *. lia. }
           destruct (Hedges i u' u Hu') as [a Ha].
           { by replace (i + 1) with (S i) by lia. }
           rewrite (pr_cut _ _ _ _ Hpr) in Ha; [done|].
           right. exists u, n. split_and!; [done| |auto].
           by rewrite lookup_take_lt by lia.
    + rewrite path_weight_app.
      replace (j + 1) with (S j) in Hz1 by lia.
      rewrite (take_S_r _ _ _ Hx) in Hz1. rewrite Hz1. simpl.
      rewrite (path_weight_mono Gp G0 weight _ d); [done| |done].
      intros i u v a _ _. apply (pr_sub _ _ _ _ Hpr).
  - intros HYA. destruct (Hedges 0 x y eq_refl eq_refl) as [a Ha].
    rewrite (pr_cut _ _ _ _ Hpr) in Ha; [done|].
    left. exists (take j P ++ x :: y :: p), x, y. split_and!; [done|done| | |].
    + rewrite lookup_app_r, Hlen, Nat.sub_diag by lia. done.
    + rewrite lookup_app_r, Hlen by lia. by replace (j + 1 - j) with 1 by lia.
    + apply same_edge_refl.
Qed.

Lemma run_get {U} (k : graph node → M U) G : bind get k G = k G G.
Proof. done. Qed.

Lemma run_ret {T U} (a : T) (k : T → M U) G : bind (ret a) k G = k a G.
Proof. done. Qed.

Lemma run_modify {U} (f : graph node → graph node) (k : () → M U) G :
  bind (modify f) k G = k () (f G).
Proof. done. Qed.

(** One turn of [for j in range(len(paths[-1]) - 1)]: it returns, leaves
    the graph as it was, and pushes a shortest loopless path among those
    that leave the accepted paths right after the root, when there is one. *)
Lemma spur_ok A P Bc j G :
  same_graph G G0 → simple_graph G →
  (∀ c, c ∈ A → ∃ l, good G0 s t weight c l) →
  last A = Some P → j < length P - 1 →
  ∃ Bc' G',
    spur G0 t weight A Bc j G = (Ok Bc', G') ∧
    same_graph G' G0 ∧ simple_graph G' ∧
    ((Bc' = Bc ∧
      ∀ X z, good G0 s t weight X z → take (j + 1) X = take (j + 1) P →
             ¬ shares A (j + 2) X → False) ∨
     (∃ l Y, Bc' = (heappush Bc.1 (l, Bc.2, Y), S Bc.2) ∧
             good G0 s t weight Y l ∧ take (j + 1) Y = take (j + 1) P ∧ (Y ∉ A) ∧
             ∀ X z, good G0 s t weight X z → take (j + 1) X = take (j + 1) P →
                    ¬ shares A (j + 2) X → (l ≤ z)%Z)).
Proof.
  intros HG Hs HA Hlast Hj.
  assert (P ∈ A) as HPA by (by apply last_Some_elem_of).
  destruct (HA P HPA) as [lP HP].
  destruct (good_spur_node _ _ _ _ _ _ _ HP Hj) as (x & Hx & Hxt).
  unfold spur.
  rewrite (run_lift _ _ _ P) by (unfold last_item; by rewrite Hlast).
  rewrite (run_lift _ _ _ x) by (unfold index; by rewrite Hx).
  lazy zeta. set (root := take (j + 1) P).
  assert (length root = j + 1) as Hlen by (unfold root; rewrite length_take; lia).
  destruct (prune_shared_all G0 root j A [] G (λ _ _, False))
    as (rem1 & G1 & Hrun1 & Hpr1).
  { by apply pruned_initial. }
  { intros c Hc Hjc Hrc. destruct (HA c Hc) as [lc Hgc].
    destruct (decide (j + 1 < length c)) as [|Hge]; [done|]. exfalso.
    assert (c !! j = Some x) as Hcj.
    { rewrite <-(lookup_take_lt c (j + 1)), <-Hrc by lia. unfold root.
      by rewrite lookup_take_lt by lia. }
    destruct Hgc as (_ & Hl & _). rewrite last_lookup in Hl.
    replace (pred (length c)) with j in Hl by lia. congruence. }
  rewrite (run_bind _ _ _ _ _ Hrun1).
  destruct (prune_root_all G0 root (seq 0 (length root - 1)) rem1 G1 _ Hpr1)
    as (rem2 & Gp & Hrun2 & Hpr2).
  { intros n Hn%elem_of_seq. lia. }
  rewrite (run_bind _ _ _ _ _ Hrun2), run_get.
  assert (pruned G0 Gp rem2 (spur_cut (is_directed G0) A root j)) as Hpr.
  { eapply pruned_iff; [|done]. intros u v. unfold spur_cut. split.
    - intros [[[]|(c & cu & cv & ?)]|(y & n & Hn%elem_of_seq & ?)].
      + left. eauto 10.
      + right. exists y, n. split; [lia|done].
    - intros [(c & cu & cv & ?)|(y & n & Hn & ?)].
      + left. right. eauto 10.
      + right. exists y, n. split; [apply elem_of_seq; lia|done]. }
  clear Hpr1 Hpr2.
  destruct (single_source_dijkstra_correct Gp x t weight) as (r & Hdij & Hpost).
  { by destruct Hpr. }
  { apply nonneg_weights_sub; by destruct Hpr. }
  rewrite (run_lift _ _ _ r Hdij).
  destruct (restore_pruned _ _ _ _ Hpr) as [HG' Hs'].
  destruct (path_weight_split G0 weight P j x lP) as (z1 & z2 & Hz1 & Hz2 & HlP);
    [by destruct HP as (_ & _ & _ & ?)|done|].
  assert (∀ X z, good G0 s t weight X z → take (j + 1) X = take (j + 1) P →
    ¬ shares A (j + 2) X →
    ∃ zX, path_weight Gp weight (drop j X) = Some zX ∧ z = (z1 + zX)%Z ∧
          head (drop j X) = Some x ∧ last (drop j X) = Some t) as Hsuffix.
  { intros X z HX HXP Hsh.
    assert (j < length X) as HjX.
    { assert (length (take (j + 1) X) = length root) as Hl by (by rewrite HXP).
      rewrite length_take in Hl. lia. }
    assert (X !! j = Some x) as HXj.
    { rewrite <-(lookup_take_lt X (j + 1)), HXP, lookup_take_lt by lia. done. }
    destruct (path_weight_split G0 weight X j x z) as (y1 & y2 & Hy1 & Hy2 & Hz);
      [by destruct HX as (_ & _ & _ & ?)|done|].
    exists y2. split_and!.
    - by eapply suffix_survives.
    - rewrite HXP in Hy1. congruence.
    - by rewrite (drop_S _ _ _ HXj).
    - destruct HX as (_ & HlX & _). rewrite last_lookup in HlX |- *.
      rewrite lookup_drop, length_drop. rewrite <-HlX. f_equal. lia. }
  unfold dpost in Hpost. destruct (r.1 !! t) as [d|] eqn:Hd.
  - destruct Hpost as (p & Hp & Hhd & Hlastp & Hndp & Hwp & Hopt).
    rewrite Hp. destruct p as [|x' sp]; [done|].
    erewrite run_bind; cycle 1.
    { rewrite (run_lift _ _ _ z1)
        by (rewrite get_path_length_weight; unfold root; by rewrite Hz1).
      rewrite (run_lift _ _ _ d) by done. done. }
    unfold restore. rewrite run_modify.
    eexists _, _. split; [done|]. split_and!; [done..|]. right.
    replace (length root - 1) with j by lia.
    assert (take j root = take j P) as ->.
    { unfold root. rewrite take_take. f_equal. lia. }
    destruct (splice_good A Gp rem2 P lP j x (x' :: sp) d z1) as (HY1 & HY2 & HY3);
      try done.
    eexists _, _. split_and!; try done.
    intros X z HX HXP Hsh.
    destruct (Hsuffix X z HX HXP Hsh) as (zX & HzX & -> & HhX & HlX).
    specialize (Hopt _ _ HhX HlX HzX). lia.
  - destruct Hpost as [Hp Hnone]. rewrite Hp.
    rewrite run_ret. unfold restore. rewrite run_modify.
    eexists _, _. split; [done|]. split_and!; [done..|]. left.
    split; [done|]. intros X z HX HXP Hsh.
    destruct (Hsuffix X z HX HXP Hsh) as (zX & HzX & _ & HhX & HlX).
    by rewrite (Hnone _ HhX HlX) in HzX.
Qed.

Lemma yinv_last st G :
  yinv G0 s t weight st G →
  ∃ P lP, last (paths st) = Some P ∧ last (lengths st) = Some lP ∧
          good G0 s t weight P lP.
Proof.
  intros Hinv. pose proof (yi_accepted _ _ _ _ _ _ Hinv) as Hacc.
  pose proof (yi_nonempty _ _ _ _ _ _ Hinv) as Hne.
  apply last_is_Some in Hne as [P HP]. exists P.
  apply last_Some in HP as [A' HA']. rewrite HA' in Hacc |- *.
  apply Forall2_app_inv_r in Hacc as (L' & L1 & _ & HL1 & ->).
  apply Forall2_cons_inv_r in HL1 as (lP & L2 & Hg & ->%Forall2_nil_inv_r & ->).
  exists lP. by rewrite !last_snoc.
Qed.

Lemma yinv_accepted st G c :
  yinv G0 s t weight st G → c ∈ paths st → ∃ l, good G0 s t weight c l.
Proof.
  intros Hinv [i Hi]%list_elem_of_lookup.
  destruct (Forall2_lookup_r _ _ _ _ _ (yi_accepted _ _ _ _ _ _ Hinv) Hi)
    as (l & _ & Hg).
  eauto.
Qed.

(** The whole of [for j in range(len(paths[-1]) - 1)]. *)
Lemma spurs_ok A P lP :
  (∀ c, c ∈ A → ∃ l, good G0 s t weight c l) →
  last A = Some P →
  (∀ X z, good G0 s t weight X z → X ∉ A → (lP ≤ z)%Z) →
  ∀ k m Bc G,
    m + k = length P - 1 →
    same_graph G G0 → simple_graph G →
    (∀ e, e ∈ Bc.1 → good G0 s t weight e.2 e.1.1 ∧ (lP ≤ e.1.1)%Z) →
    covered G0 s t weight A Bc.1
      (λ j X, take (j + 1) P ≠ take (j + 1) X ∨ j < m) →
    ∃ Bc' G',
      for_each (seq m k) (spur G0 t weight A) Bc G = (Ok Bc', G') ∧
      same_graph G' G0 ∧ simple_graph G' ∧
      (∀ e, e ∈ Bc'.1 → good G0 s t weight e.2 e.1.1 ∧ (lP ≤ e.1.1)%Z) ∧
      covered G0 s t weight A Bc'.1
        (λ j X, take (j + 1) P ≠ take (j + 1) X ∨ j < m + k).
Proof.
  intros HA Hlast Hleast.
  induction k as [|k IH]; intros m Bc G Hmk HG Hs HB Hcov; simpl.
  - eexists _, _. split; [done|]. split_and!; try done.
    by replace (m + 0) with m by lia.
  - destruct (spur_ok A P Bc m G HG Hs HA Hlast) as (Bc1 & G1 & Hrun & HG1 & Hs1 & Hpost);
      [lia|].
    rewrite (run_bind _ _ _ _ _ Hrun).
    destruct (IH (S m) Bc1 G1) as (Bc' & G' & Hrun' & ? & ? & ? & Hcov');
      [lia|done|done| | |].
    + destruct Hpost as [[-> _]|(l & Y & -> & HY & _ & HYA & _)]; [done|].
      simpl. unfold heappush. intros e [He| ->%list_elem_of_singleton]%elem_of_app.
      * by apply HB.
      * simpl. split; [done|]. by apply (Hleast Y).
    + intros X z j HX HXA Hsh Hnsh Hside.
      destruct (decide (take (j + 1) P ≠ take (j + 1) X ∨ j < m)) as [Hold|Hnew].
      * destruct (Hcov X z j HX HXA Hsh Hnsh Hold) as (e & He & ?).
        exists e. split; [|done].
        destruct Hpost as [[-> _]|(l & Y & -> & _)]; [done|].
        simpl. unfold heappush. apply elem_of_app. by left.
      * assert (j = m ∧ take (m + 1) X = take (m + 1) P) as [-> HXP].
        { destruct (decide (take (j + 1) P = take (j + 1) X)) as [Heq|Hne];
            [|by destruct Hnew; left].
          assert (j = m) as -> by (destruct Hside as [?|?]; [done|];
            destruct (decide (j < m)); [by destruct Hnew; right|lia]).
          done. }
        destruct Hpost as [[_ Hnone]|(l & Y & -> & _ & HYP & _ & Hopt)].
        -- destruct (Hnone X z HX HXP Hnsh).
        -- exists (l, Bc.2, Y). simpl. split_and!.
           ++ unfold heappush. apply elem_of_app. right. by apply list_elem_of_singleton.
           ++ by eapply Hopt.
           ++ congruence.
    + eexists _, _. split; [done|]. split_and!; try done.
      by replace (m + S k) with (S m + k) by lia.
Qed.

(** One turn of [for i in range(1, k)]. *)
Lemma yen_step_ok st G :
  yinv G0 s t weight st G →
  ∃ o G',
    yen_step G0 t weight st G = (Ok o, G') ∧
    match o with
    | Some st' =>
        yinv G0 s t weight st' G' ∧
        ∃ l p, lengths st' = lengths st ++ [l] ∧ paths st' = paths st ++ [p]
    | None => same_graph G' G0 ∧ simple_graph G'
    end.
Proof.
  intros Hinv. destruct (yinv_last _ _ Hinv) as (P & lP & HP & HlP & HgP).
  unfold yen_step.
  rewrite (run_lift _ _ _ P) by (unfold last_item; by rewrite HP).
  destruct (spurs_ok (paths st) P lP) with (k := length P - 1) (m := 0)
    (Bc := (B st, c st)) (G := G)
    as (Bc & G' & Hrun & HG' & Hs' & HB & Hcov); try (by destruct Hinv).
  { intros c'. by apply (yinv_accepted st G). }
  { intros X z HX HXA. by apply (yi_least _ _ _ _ _ _ Hinv X z lP). }
  { simpl. intros e He. split; [by apply (yi_heap _ _ _ _ _ _ Hinv)|].
    by apply (yi_lower _ _ _ _ _ _ Hinv). }
  { simpl. intros X z j HX HXA Hsh Hnsh [Hside|?]; [|lia].
    by apply (yi_covered _ _ _ _ _ _ Hinv P HP X z j). }
  rewrite (run_bind _ _ _ _ _ Hrun). simpl in Hcov.
  assert (covered G0 s t weight (paths st) Bc.1 (λ _ _, True)) as Hall.
  { intros X z j HX HXA Hsh Hnsh _. apply (Hcov X z j HX HXA Hsh Hnsh).
    destruct (decide (take (j + 1) P = take (j + 1) X)) as [Heq|Hne]; [|by left].
    right. assert (P ≠ X) as HPX.
    { intros ->. apply HXA. by apply last_Some_elem_of. }
    destruct (good_prefix_lt _ _ _ _ _ _ _ _ _ HgP HX HPX Heq). lia. }
  destruct (heappop Bc.1) as [[[[l' c'] p'] B']|] eqn:Hpop.
  - eexists _, _. split; [done|]. simpl. split; [|eauto].
    pose proof (heappop_elem _ _ _ Hpop) as Hin.
    destruct (HB _ Hin) as [Hg' Hl']. simpl in *.
    destruct Hinv. split; simpl; try done.
    + apply Forall2_app; [done|]. constructor; [done|constructor].
    + by destruct (paths st).
    + intros e He. apply HB. by eapply heappop_rest.
    + intros i x y Hx Hy.
      destruct (decide (i + 1 < length (lengths st))) as [Hlt|Hge].
      * rewrite lookup_app_l in Hx, Hy by lia. by eapply yi_sorted0.
      * rewrite last_lookup in HlP.
        assert (i + 1 = length (lengths st)) as Hi.
        { apply lookup_lt_Some in Hy. rewrite length_app in Hy. simpl in Hy. lia. }
        rewrite lookup_app_l in Hx by lia. rewrite lookup_app_r in Hy by lia.
        replace (i + 1 - length (lengths st)) with 0 in Hy by lia.
        replace (pred (length (lengths st))) with i in HlP by lia.
        simpl in Hy. simplify_eq. done.
    + intros e l He. rewrite last_snoc. intros [= <-].
      apply (heappop_min _ _ _ e Hpop). by eapply heappop_rest.
    + intros X z l HX HXA. rewrite last_snoc. intros [= <-].
      assert (X ∉ paths st) as HXA' by (intros ?; apply HXA, elem_of_app; by left).
      destruct (shares_longest G0 s t weight (paths st) X z P lP)
        as (j & Hsh & Hnsh); [done..|by apply last_Some_elem_of|done|].
      destruct (Hall X z j HX HXA' Hsh Hnsh I) as (e & He & Hle & _).
      pose proof (heappop_min _ _ _ e Hpop He). simpl in *. lia.
    + intros P'. rewrite last_snoc. intros [= <-].
      intros X z j HX HXA Hsh Hnsh Hside.
      assert (X ∉ paths st) as HXA' by (intros ?; apply HXA, elem_of_app; by left).
      unfold shares in Hsh, Hnsh. rewrite Exists_app in Hsh, Hnsh.
      destruct Hsh as [Hsh|Hsh%Exists_cons]; [|by destruct Hsh as [?|?%Exists_nil]].
      destruct (Hall X z j HX HXA' Hsh) as (e & He & Hle & Htake); [tauto|done|].
      exists e. split_and!; [|done..].
      apply (heappop_in _ _ _ _ Hpop) in He as [->|He]; [|done].
      simpl in Htake. congruence.
  - eexists _, _. split; [done|]. done.
Qed.

(** The loop returns, and its invariant holds for what it returns. *)
Lemma yen_loop_ok n : ∀ st G,
  yinv G0 s t weight st G →
  ∃ st' G',
    yen_loop n G0 t weight st G = (Ok st', G') ∧
    same_graph G' G0 ∧ simple_graph G' ∧
    (∃ G'', yinv G0 s t weight st' G'') ∧
    (∃ ls ps, lengths st' = lengths st ++ ls ∧ paths st' = paths st ++ ps ∧
              length ps ≤ n).
Proof.
  induction n as [|n IH]; intros st G Hinv; simpl.
  - eexists _, _. split; [done|]. destruct Hinv. split_and!; try done.
    + eexists. by split.
    + exists [], []. by rewrite !app_nil_r.
  - destruct (yen_step_ok st G Hinv) as (o & G1 & Hrun & Hpost).
    rewrite (run_bind _ _ _ _ _ Hrun). destruct o as [st1|].
    + destruct Hpost as [Hinv1 (l & p & Hl & Hp)].
      destruct (IH st1 G1 Hinv1) as (st' & G' & Hrun' & ? & ? & ? & (ls & ps & Hls & Hps & ?)).
      eexists _, _. split; [done|]. split_and!; try done.
      exists (l :: ls), (p :: ps). rewrite Hls, Hps, Hl, Hp, <-!app_assoc.
      split_and!; [done..|simpl; lia].
    + destruct Hpost. eexists _, _. split; [done|]. split_and!; try done.
      * by exists G.
      * exists [], []. rewrite !app_nil_r. split_and!; [done..|simpl; lia].
Qed.

(** Once the heap has run empty, more turns change nothing. *)
Lemma yen_loop_stable n : ∀ st G st' G',
  yinv G0 s t weight st G →
  yen_loop n G0 t weight st G = (Ok st', G') →
  length (paths st') < length (paths st) + n →
  ∀ n', n ≤ n' → yen_loop n' G0 t weight st G = (Ok st', G').
Proof.
  induction n as [|n IH]; intros st G st' G' Hinv; simpl.
  - intros [= <- <-]. lia.
  - destruct (yen_step_ok st G Hinv) as (o & G1 & Hrun & Hpost).
    rewrite (run_bind _ _ _ _ _ Hrun). destruct o as [st1|].
    + destruct Hpost as [Hinv1 (l & p & Hl & Hp)]. intros Hloop Hlen n' Hn'.
      destruct n' as [|n']; [lia|]. simpl. rewrite (run_bind _ _ _ _ _ Hrun).
      apply (IH st1 G1); [done..| |lia].
      rewrite Hp, length_app. simpl. lia.
    + intros [= <- <-] _ n' Hn'. destruct n' as [|n']; [lia|]. simpl.
      by rewrite (run_bind _ _ _ _ _ Hrun).
Qed.

(** The invariant holds whenever a turn of the loop begins. *)
Lemma yen_reach_yinv st0 st G :
  yinv G0 s t weight st0 G0 → yen_reach G0 t weight st0 st G →
  yinv G0 s t weight st G.
Proof.
  intros Hinv0. induction 1 as [|st G st' G' _ IH Hstep]; [done|].
  destruct (yen_step_ok st G IH) as (o & G1 & Hrun & Hpost).
  rewrite Hrun in Hstep. injection Hstep as -> ->. by destruct Hpost.
Qed.

End yen_facts.

(** * The whole of [k_shortest_paths] *)

Section top.
Context {node : Type} `{Countable node}.
Implicit Types G : graph node.

Lemma k_shortest_paths_same G s k weight :
  k_shortest_paths G s s k weight = (Ok ([0%Z], [[s]]), G).
Proof. unfold k_shortest_paths. by rewrite decide_True. Qed.

Lemma st_path_weight G s t weight q :
  st_path G s t q ↔
  head q = Some s ∧ last q = Some t ∧ is_Some (path_weight G weight q).
Proof. unfold st_path. by rewrite (is_path_weight G weight). Qed.

Lemma same_graph_refl G : same_graph G G.
Proof. by split. Qed.

Lemma yen_start_Some G s t weight st0 :
  simple_graph G → nonneg_weights G weight → s ≠ t →
  yen_start G s t weight = Some st0 →
  yinv G s t weight st0 G ∧
  ∃ l0 p0, st0 = YState [l0] [p0] [] 0 ∧
    ∀ q z, head q = Some s → last q = Some t →
           path_weight G weight q = Some z → (l0 ≤ z)%Z.
Proof.
  intros Hs Hn Hst. unfold yen_start.
  destruct (single_source_dijkstra_correct G s t weight Hs Hn) as (r & -> & Hpost).
  unfold dpost in Hpost. destruct (r.1 !! t) as [d|]; [|done].
  destruct Hpost as (p & -> & Hhd & Hlast & Hnd & Hw & Hopt).
  intros [= <-]. split; [|eauto].
  assert (good G s t weight p d) as Hg by done.
  split; simpl.
  - apply same_graph_refl.
  - done.
  - by repeat constructor.
  - done.
  - by intros e ?%elem_of_nil.
  - intros [|i] x y; simpl; [done|]. by rewrite lookup_nil.
  - by intros e l ?%elem_of_nil.
  - intros X z l (HhX & HlX & _ & HwX) _ [= <-]. by eapply Hopt.
  - intros P [= <-] X z j _ _ Hsh _ Hside.
    apply Exists_cons in Hsh as [?|?%Exists_nil]; done.
Qed.

(** On a valid input with distinct end points the call either raises
    [NetworkXNoPath] at once, when there is no path, or returns what the
    loop returns. *)
Lemma k_shortest_paths_run G s t k weight :
  simple_graph G → nonneg_weights G weight → s ≠ t →
  (¬ reachable G s t ∧ yen_start G s t weight = None ∧
   k_shortest_paths G s t k weight = (Raise NetworkXNoPath, G)) ∨
  (reachable G s t ∧
   ∃ st0 st G', yen_start G s t weight = Some st0 ∧
     yen_loop (k - 1) G t weight st0 G = (Ok st, G') ∧
     k_shortest_paths G s t k weight = (Ok (lengths st, paths st), G')).
Proof.
  intros Hs Hn Hst.
  destruct (single_source_dijkstra_correct G s t weight Hs Hn) as (r & Hdij & Hpost).
  unfold dpost in Hpost. destruct (r.1 !! t) as [d|] eqn:Hd.
  - right. destruct Hpost as (p & Hp & Hhd & Hlast & Hnd & Hw & Hopt). split.
    { exists p. apply (st_path_weight G s t weight). by rewrite Hw. }
    assert (yen_start G s t weight = Some (YState [d] [p] [] 0)) as Hstart.
    { unfold yen_start. by rewrite Hdij, Hd, Hp. }
    destruct (yen_start_Some G s t weight _ Hs Hn Hst Hstart) as [Hinv _].
    destruct (yen_loop_ok G s t weight) with (n := k - 1) (G := G)
      (st := YState [d] [p] [] 0) as (st & G' & Hrun & _); [done..|].
    eexists _, st, G'. split_and!; [done..|].
    unfold k_shortest_paths. rewrite decide_False by done.
    rewrite run_get, (run_lift _ _ _ _ Hdij), Hd.
    rewrite (run_lift _ _ _ p) by (by rewrite Hp).
    by rewrite run_get, (run_bind _ _ _ _ _ Hrun).
  - left. destruct Hpost as [Hp Hnone]. split_and!.
    + intros (q & Hq). apply (st_path_weight G s t weight) in Hq as (? & ? & [z Hz]).
      by rewrite Hnone in Hz.
    + unfold yen_start. by rewrite Hdij, Hd.
    + unfold k_shortest_paths. rewrite decide_False by done.
      by rewrite run_get, (run_lift _ _ _ _ Hdij), Hd.
Qed.

Lemma k_shortest_paths_valid G s t k weight :
  simple_graph G → nonneg_weights G weight → reachable G s t →
  ∃ lengths paths G',
    k_shortest_paths G s t k weight = (Ok (lengths, paths), G') ∧
    same_graph G' G ∧ simple_graph G' ∧
    Forall2 (λ l p, good G s t weight p l) lengths paths ∧
    non_decreasing lengths ∧
    (∃ l0 p0 ls ps, lengths = l0 :: ls ∧ paths = p0 :: ps ∧ length ps ≤ k - 1 ∧
       ∀ q z, head q = Some s → last q = Some t →
              path_weight G weight q = Some z → (l0 ≤ z)%Z) ∧
    (length paths < k → ∀ k', k ≤ k' →
       k_shortest_paths G s t k' weight = (Ok (lengths, paths), G')).
Proof.
  intros Hs Hn Hreach. destruct (decide (s = t)) as [<-|Hst].
  - exists [0%Z], [[s]], G. rewrite k_shortest_paths_same.
    split_and!; [done|apply same_graph_refl|done| | | |].
    + constructor; [|constructor]. split_and!; try done. apply NoDup_singleton.
    + intros [|i] x y; simpl; [done|]. by rewrite lookup_nil.
    + exists 0%Z, [s], [], []. split_and!; [done..|simpl; lia|].
      intros q z _ _. by apply path_weight_nonneg.
    + intros _ k' _. apply k_shortest_paths_same.
  - destruct (k_shortest_paths_run G s t k weight Hs Hn Hst)
      as [[Hno _]|(_ & st0 & st & G' & Hstart & Hloop & Hrun)]; [done|].
    destruct (yen_start_Some G s t weight st0 Hs Hn Hst Hstart)
      as (Hinv0 & l0 & p0 & -> & Hopt).
    destruct (yen_loop_ok G s t weight) with (n := k - 1) (G := G)
      (st := YState [l0] [p0] [] 0)
      as (st1 & G1 & Hloop1 & HG & HsG & [G'' Hinv] & ls & ps & Hls & Hps & Hlen);
      [done..|].
    rewrite Hloop in Hloop1. injection Hloop1 as <- <-.
    exists (lengths st), (paths st), G'. split_and!; try done.
    + by destruct Hinv.
    + by destruct Hinv.
    + exists l0, p0, ls, ps. by rewrite Hls, Hps.
    + intros Hshort k' Hk'.
      destruct (k_shortest_paths_run G s t k' weight Hs Hn Hst)
        as [[Hno _]|(_ & st0' & st' & G2 & Hstart' & Hloop' & Hrun')]; [done|].
      rewrite Hrun'. rewrite Hstart in Hstart'. injection Hstart' as <-.
      assert (yen_loop (k' - 1) G t weight (YState [l0] [p0] [] 0) G = (Ok st, G'))
        as Hstable.
      { eapply yen_loop_stable with (n := k - 1); try done; [|lia].
        rewrite Hps in Hshort |- *. simpl in *. lia. }
      rewrite Hstable in Hloop'. by injection Hloop' as <- <-.
Qed.

End top.

(** * The program on its examples *)

Example demo_run :
  (k_shortest_paths demo_graph "A" "F" 3 "weight").1 =
  Ok ([17; 24; 24]%Z,
      [["A"; "B"; "D"; "F"]; ["A"; "B"; "C"; "E"; "F"];
       ["A"; "B"; "C"; "E"; "D"; "F"]]).
Proof. vm_compute. reflexivity. Qed.

Example docstring_run :
  (k_shortest_paths complete_graph_5 0 4 4 "weight").1 =
  Ok ([1; 2; 2; 2]%Z, [[0; 4]; [0; 1; 4]; [0; 2; 4]; [0; 3; 4]]).
Proof. vm_compute. reflexivity. Qed.

Ltac by_evaluation := apply (bool_decide_unpack _); vm_compute; exact I.

Ltac valid_graph :=
  lazymatch goal with
  | |- simple_graph _ => by_evaluation
  | |- nonneg_weights _ _ => by_evaluation
  | |- reachable demo_graph "A" "F" => exists ["A"; "B"; "D"; "F"]; by_evaluation
  | |- reachable detour_graph "s" "t" => exists ["s"; "t"]; by_evaluation
  end.

(** * The claims *)

Section claims.
Context {node : Type} `{Countable node}.
Implicit Types G : graph node.






(** C8: when source and target are the same node the call returns
    [([0], [[source]])] whatever the graph and [k] are, and the graph is
    not touched. *)
Theorem source_equals_target G s k weight :
  k_shortest_paths G s s k weight = (Ok ([0%Z], [[s]]), G).
Proof. apply k_shortest_paths_same. Qed.


(** C10: whenever a turn of the outer loop can begin, for every spur
    position [j] of the last accepted path and every accepted path that
    passes the guard [len(c_path) > j and root_path == c_path[:j + 1]],
    [c_path] has at least [j + 2] nodes, so that [c_path[j + 1]] exists;
    the spur node is not the target. *)
Theorem spur_index_in_bounds G s t weight st0 st G' last_path c_path j :
  simple_graph G → nonneg_weights G weight → s ≠ t →
  yen_start G s t weight = Some st0 →
  yen_reach G t weight st0 st G' →
  last (paths st) = Some last_path → j < length last_path - 1 →
  c_path ∈ paths st →
  j < length c_path → take (j + 1) last_path = take (j + 1) c_path →
  j + 2 ≤ length c_path ∧ is_Some (c_path !! (j + 1)) ∧
  last_path !! j ≠ Some t.
Proof.
  intros Hs Hn Hst Hstart Hreach Hlast Hj Hc Hjc Htake.
  destruct (yen_start_Some G s t weight st0 Hs Hn Hst Hstart) as [Hinv0 _].
  pose proof (yen_reach_yinv G s t weight Hn st0 st G' Hinv0 Hreach) as Hinv.
  destruct (yinv_accepted G s t weight st G' last_path Hinv) as [lP HP];
    [by apply last_Some_elem_of|].
  destruct (yinv_accepted G s t weight st G' c_path Hinv Hc) as [lc Hgc].
  destruct (good_spur_node _ _ _ _ _ _ _ HP Hj) as (x & Hx & Hxt).
  assert (c_path !! j = Some x) as Hcj.
  { rewrite <-(lookup_take_lt c_path (j + 1)), <-Htake, lookup_take_lt by lia. done. }
  assert (j + 2 ≤ length c_path) as Hlen.
  { destruct (decide (j + 2 ≤ length c_path)) as [|Hshort]; [done|]. exfalso.
    destruct Hgc as (_ & Hl & _). rewrite last_lookup in Hl.
    replace (pred (length c_path)) with j in Hl by lia. congruence. }
  split_and!; [done|apply lookup_lt_is_Some_2; lia|]. rewrite Hx. congruence.
Qed.


End claims.

(** The loopless paths of [detour_graph] from [s] to [t]. *)
Lemma detour_graph_edges u v :
  is_Some (edge detour_graph u v) →
  (u, v) ∈ [("s", "a"); ("a", "s"); ("a", "t"); ("t", "a"); ("a", "c");
            ("c", "a"); ("c", "t"); ("t", "c"); ("s", "t"); ("t", "s")].
Proof.
  intros [a (x & y & Hin & E)%find_edge_Some].
  apply same_edge_true in E. simpl in Hin.
  repeat (apply elem_of_cons in Hin as [Hin|Hin]);
    [injection Hin as -> -> _; destruct E as [[-> ->]|(_ & -> & ->)];
     repeat ((by left) || right)..|by apply elem_of_nil in Hin].
Qed.

Ltac next_node H :=
  let He := fresh "He" in
  destruct H as [He H]; apply detour_graph_edges in He;
  repeat (apply elem_of_cons in He as [He|He]);
  [simplify_eq..|by apply elem_of_nil in He].

Ltac repeats Hnd :=
  exfalso; revert Hnd; unfold loopless;
  rewrite ?NoDup_cons, ?not_elem_of_cons; intuition congruence.

Ltac explore H Hnd Hlast :=
  lazymatch type of H with
  | is_path _ [_] =>
      first [by (simpl in Hlast; simplify_eq) | repeat ((by left) || right)]
  | is_path ?G (?u :: ?q) =>
      let y := fresh "y" in
      destruct q as [|y q];
      [explore H Hnd Hlast
      |change (is_Some (edge G u y) ∧ is_path G (y :: q)) in H;
       next_node H; first [by repeats Hnd | explore H Hnd Hlast]]
  end.

Lemma detour_graph_paths p :
  st_path detour_graph "s" "t" p → loopless p →
  p ∈ [["s"; "a"; "t"]; ["s"; "a"; "c"; "t"]; ["s"; "t"]].
Proof.
  intros (Hhd & Hlast & Hpath) Hnd.
  destruct p as [|x0 p]; [done|]. injection Hhd as ->.
  explore Hpath Hnd Hlast.
Qed.

(** C4: the code returns the same path twice.  [detour_graph] is a valid
    input with three loopless paths from [s] to [t]; for [k = 4] the
    candidate [s t] is found from the first accepted path and again from
    the second one, is pushed twice, and is popped as the third and as
    the fourth result. *)
Theorem same_path_returned_twice :
  simple_graph detour_graph ∧ nonneg_weights detour_graph "weight" ∧
  reachable detour_graph "s" "t" ∧
  (∀ p, st_path detour_graph "s" "t" p → loopless p →
        p ∈ [["s"; "a"; "t"]; ["s"; "a"; "c"; "t"]; ["s"; "t"]]) ∧
  ∃ lengths paths G',
    k_shortest_paths detour_graph "s" "t" 4 "weight" = (Ok (lengths, paths), G') ∧
    lengths = [2; 3; 10; 10]%Z ∧
    paths = [["s"; "a"; "t"]; ["s"; "a"; "c"; "t"]; ["s"; "t"]; ["s"; "t"]] ∧
    ¬ NoDup paths.
Proof.
  split_and!; [valid_graph..|apply detour_graph_paths|].
  eexists _, _, _. split; [vm_compute; reflexivity|]. split_and!; [done..|].
  intros Hnd. apply NoDup_cons in Hnd as [_ Hnd].
  apply NoDup_cons in Hnd as [_ Hnd]. apply NoDup_cons in Hnd as [Hnotin _].
  apply Hnotin. left.
Qed.


(** * The claims on the example graphs *)







Lemma spur_index_in_bounds_witness :
  ∃ st G',
    yen_reach demo_graph "F" "weight"
      (YState [17%Z] [["A"; "B"; "D"; "F"]] [] 0) st G' ∧
    paths st = [["A"; "B"; "D"; "F"]; ["A"; "B"; "C"; "E"; "F"]] ∧
    1 + 2 ≤ length ["A"; "B"; "D"; "F"] ∧
    is_Some (["A"; "B"; "D"; "F"] !! (1 + 1)) ∧
    ["A"; "B"; "C"; "E"; "F"] !! 1 ≠ Some "F".
Proof.
  assert (∃ st G',
    yen_step demo_graph "F" "weight" (YState [17%Z] [["A"; "B"; "D"; "F"]] [] 0)
      demo_graph = (Ok (Some st), G') ∧
    paths st = [["A"; "B"; "D"; "F"]; ["A"; "B"; "C"; "E"; "F"]])
    as (st & G' & Hstep & Hpaths).
  { eexists _, _. split; [vm_compute; reflexivity|reflexivity]. }
  assert (yen_reach demo_graph "F" "weight"
    (YState [17%Z] [["A"; "B"; "D"; "F"]] [] 0) st G') as Hreach.
  { eapply reach_turn; [apply reach_start|exact Hstep]. }
  assert (simple_graph demo_graph) as Hs by valid_graph.
  assert (nonneg_weights demo_graph "weight") as Hn by valid_graph.
  assert ("A" ≠ "F") as Hne by discriminate.
  assert (yen_start demo_graph "A" "F" "weight" =
          Some (YState [17%Z] [["A"; "B"; "D"; "F"]] [] 0)) as Hstart
    by (vm_compute; reflexivity).
  assert (last (paths st) = Some ["A"; "B"; "C"; "E"; "F"]) as Hlast
    by (rewrite Hpaths; reflexivity).
  assert (1 < length ["A"; "B"; "C"; "E"; "F"] - 1) as Hj by (simpl; lia).
  assert (["A"; "B"; "D"; "F"] ∈ paths st) as Hc by (rewrite Hpaths; left).
  assert (1 < length ["A"; "B"; "D"; "F"]) as Hjc by (simpl; lia).
  assert (take (1 + 1) ["A"; "B"; "C"; "E"; "F"] = take (1 + 1) ["A"; "B"; "D"; "F"])
    as Htake by reflexivity.
  pose proof (spur_index_in_bounds demo_graph "A" "F" "weight" _ st G' _ _ 1
                Hs Hn Hne Hstart Hreach Hlast Hj Hc Hjc Htake) as Hbound.
  exists st, G'. split; [exact Hreach|]. split; [exact Hpaths|]. exact Hbound.
Defined.


(** * More about [get_path_length] *)

Section path_length.
Context {node : Type} `{Countable node}.
Implicit Types G : graph node.
Implicit Types p q path : list node.

(** X1: [get_path_length] returns the sum of the weights along the path, each
    edge without the weight key counting 1; it raises [KeyError] exactly
    when two consecutive nodes are not joined by an edge, and it raises
    nothing else (no index is out of range). *)
Theorem get_path_length_sum_or_KeyError G path weight :
  (∀ z, get_path_length G path weight = Ok z ↔
        path_weight G weight path = Some z) ∧
  (get_path_length G path weight = Raise KeyError ↔ ¬ is_path G path) ∧
  (∀ e, get_path_length G path weight = Raise e → e = KeyError).
Proof.
  rewrite get_path_length_weight, (is_path_weight G weight).
  destruct (path_weight G weight path) as [z|]; split_and!.
  - intros z'. split; congruence.
  - split; [done|]. intros []. eauto.
  - done.
  - intros z'. split; congruence.
  - split; [|done]. intros _ [z Hz]. done.
  - congruence.
Qed.


(** X3: on a graph where no edge carries the weight key, the length of a
    path is its number of edges. *)
Theorem get_path_length_unweighted G path weight :
  Forall (λ e, e.2 !! weight = None) (edge_list G) →
  is_path G path →
  get_path_length G path weight = Ok (Z.of_nat (length path - 1)).
Proof.
  intros Hnone Hpath. rewrite get_path_length_weight.
  assert (∀ u v a, edge G u v = Some a → get_weight weight a = 1%Z) as Hone.
  { intros u v a (x & y & Hin & _)%find_edge_Some.
    rewrite Forall_forall in Hnone. unfold get_weight.
    pose proof (Hnone _ Hin) as Ha. simpl in Ha. by rewrite Ha. }
  induction path as [|u [|v p] IH]; [done..|].
  change (is_Some (edge G u v) ∧ is_path G (v :: p)) in Hpath.
  destruct Hpath as [[a Ha] Hp]. rewrite path_weight_cons2, Ha. simpl.
  specialize (IH Hp). destruct (path_weight G weight (v :: p)) as [z|]; [|done].
  simpl in *. injection IH as ->. rewrite (Hone _ _ _ Ha). f_equal. lia.
Qed.

Lemma path_weight_rev G weight p :
  is_directed G = false →
  path_weight G weight (rev p) = path_weight G weight p.
Proof.
  intros Hd. induction p as [|u [|v p] IH]; [done..|].
  rewrite path_weight_cons2. simpl rev in *. rewrite <-app_assoc. simpl.
  rewrite path_weight_snoc, IH, (edge_undirected G u v Hd).
  destruct (path_weight G weight (v :: p)) as [z|]; simpl.
  - destruct (edge G u v) as [a|]; simpl; [|done]. f_equal; lia.
  - by destruct (edge G u v).
Qed.


(** X5: with non-negative weights a path length is never negative. *)
Theorem get_path_length_nonneg G path weight z :
  nonneg_weights G weight →
  get_path_length G path weight = Ok z → (0 ≤ z)%Z.
Proof.
  intros Hn. rewrite get_path_length_weight.
  destruct (path_weight G weight path) as [z'|] eqn:Hw; [|done].
  intros [= <-]. by apply (path_weight_nonneg G weight path).
Qed.

End path_length.

Lemma get_path_length_unweighted_witness :
  Forall (λ e, e.2 !! "weight" = None) (edge_list complete_graph_5) ∧
  is_path complete_graph_5 [0; 1; 4] ∧
  get_path_length complete_graph_5 [0; 1; 4] "weight" = Ok 2%Z.
Proof.
  split_and!; [by_evaluation..|].
  apply (get_path_length_unweighted complete_graph_5 [0; 1; 4]); by_evaluation.
Defined.


(** * More about the controller *)

Section yen_more.
Context {node : Type} `{Countable node}.
Variables (G0 : graph node) (s t : node) (weight : string).
Hypothesis Hnonneg0 : nonneg_weights G0 weight.
Implicit Types G : graph node.
Implicit Types p q X c P : list node.
Implicit Types A : list (list node).
Implicit Types Bc : list (Z * nat * list node) * nat.

(** What a turn of the outer loop is made of. *)
Lemma yen_step_shape st G o G' :
  yinv G0 s t weight st G →
  yen_step G0 t weight st G = (Ok o, G') →
  ∃ P lP Bc,
    last (paths st) = Some P ∧ last (lengths st) = Some lP ∧
    for_each (seq 0 (length P - 1)) (spur G0 t weight (paths st))
      (B st, c st) G = (Ok Bc, G') ∧
    (∀ e, e ∈ Bc.1 → good G0 s t weight e.2 e.1.1 ∧ (lP ≤ e.1.1)%Z) ∧
    covered G0 s t weight (paths st) Bc.1 (λ _ _, True) ∧
    o = match heappop Bc.1 with
        | Some (lp, B') =>
            Some (YState (lengths st ++ [lp.1.1]) (paths st ++ [lp.2]) B' Bc.2)
        | None => None
        end.
Proof.
  intros Hinv. destruct (yinv_last _ _ _ _ _ _ Hinv) as (P & lP & HP & HlP & HgP).
  unfold yen_step.
  rewrite (run_lift _ _ _ P) by (unfold last_item; by rewrite HP).
  destruct (spurs_ok G0 s t weight Hnonneg0 (paths st) P lP)
    with (k := length P - 1) (m := 0) (Bc := (B st, c st)) (G := G)
    as (Bc & G1 & Hrun & _ & _ & HB & Hcov); try (by destruct Hinv).
  { intros c'. by apply (yinv_accepted G0 s t weight st G). }
  { intros X z HX HXA. by apply (yi_least _ _ _ _ _ _ Hinv X z lP). }
  { simpl. intros e He. split; [by apply (yi_heap _ _ _ _ _ _ Hinv)|].
    by apply (yi_lower _ _ _ _ _ _ Hinv). }
  { simpl. intros X z j HX HXA Hsh Hnsh [Hside|?]; [|lia].
    by apply (yi_covered _ _ _ _ _ _ Hinv P HP X z j). }
  rewrite (run_bind _ _ _ _ _ Hrun). simpl in Hcov. intros Hstep.
  exists P, lP, Bc.
  assert (G1 = G' ∧ o = match heappop Bc.1 with
        | Some (lp, B') =>
            Some (YState (lengths st ++ [lp.1.1]) (paths st ++ [lp.2]) B' Bc.2)
        | None => None
        end) as [-> ->].
  { destruct (heappop Bc.1) as [[lp B']|]; by injection Hstep as <- <-. }
  split_and!; try done.
  intros X z j HX HXA Hsh Hnsh _. apply (Hcov X z j HX HXA Hsh Hnsh).
  destruct (decide (take (j + 1) P = take (j + 1) X)) as [Heq|Hne]; [|by left].
  right. assert (P ≠ X) as HPX.
  { intros ->. apply HXA. by apply last_Some_elem_of. }
  destruct (good_prefix_lt _ _ _ _ _ _ _ _ _ HgP HX HPX Heq). lia.
Qed.

(** Whatever holds of the heap and is kept by pushing a loopless path that
    is not accepted yet, under the next sequence id, holds after the spur
    loop. *)
Lemma spurs_fresh A P (Φ : list (Z * nat * list node) * nat → Prop) :
  (∀ c, c ∈ A → ∃ l, good G0 s t weight c l) →
  last A = Some P →
  (∀ Bc l Y, Φ Bc → good G0 s t weight Y l → Y ∉ A →
             Φ (heappush Bc.1 (l, Bc.2, Y), S Bc.2)) →
  ∀ k m Bc G Bc' G',
    m + k ≤ length P - 1 →
    same_graph G G0 → simple_graph G → Φ Bc →
    for_each (seq m k) (spur G0 t weight A) Bc G = (Ok Bc', G') →
    Φ Bc'.
Proof.
  intros HA Hlast Hpush.
  induction k as [|k IH]; intros m Bc G Bc' G' Hmk HG Hs HΦ; simpl.
  - by intros [= <- <-].
  - destruct (spur_ok G0 s t weight Hnonneg0 A P Bc m G HG Hs HA Hlast)
      as (Bc1 & G1 & Hrun & HG1 & Hs1 & Hpost); [lia|].
    rewrite (run_bind _ _ _ _ _ Hrun). apply (IH (S m)); [lia|done..|].
    destruct Hpost as [[-> _]|(l & Y & -> & HY & _ & HYA & _)]; [done|].
    by apply Hpush.
Qed.

(** Whatever a turn of the outer loop keeps, the loop keeps. *)
Lemma yen_loop_keeps (Ψ : ystate node → Prop) :
  (∀ st G st' G', yinv G0 s t weight st G → Ψ st →
     yen_step G0 t weight st G = (Ok (Some st'), G') → Ψ st') →
  ∀ n st G st' G',
    yinv G0 s t weight st G → Ψ st →
    yen_loop n G0 t weight st G = (Ok st', G') → Ψ st'.
Proof.
  intros Hkeep. induction n as [|n IH]; intros st G st' G' Hinv HΨ; simpl.
  - by intros [= <- <-].
  - destruct (yen_step_ok G0 s t weight Hnonneg0 st G Hinv) as (o & G1 & Hrun & Hpost).
    rewrite (run_bind _ _ _ _ _ Hrun). destruct o as [st1|].
    + destruct Hpost as [Hinv1 _]. apply (IH st1 G1); [done|].
      by apply (Hkeep st G st1 G1).
    + by intros [= <- <-].
Qed.

Lemma yen_reach_keeps (Ψ : ystate node → Prop) st0 :
  (∀ st G st' G', yinv G0 s t weight st G → Ψ st →
     yen_step G0 t weight st G = (Ok (Some st'), G') → Ψ st') →
  yinv G0 s t weight st0 G0 → Ψ st0 →
  ∀ st G, yen_reach G0 t weight st0 st G → Ψ st.
Proof.
  intros Hkeep Hinv0 HΨ0 st G Hreach.
  induction Hreach as [|st G st' G' Hreach IH Hstep]; [done|].
  apply (Hkeep st G st' G'); [|done..].
  by apply (yen_reach_yinv G0 s t weight Hnonneg0 st0).
Qed.

Lemma yen_step_fresh_ids st G st' G' :
  yinv G0 s t weight st G → fresh_ids (B st) (c st) →
  yen_step G0 t weight st G = (Ok (Some st'), G') →
  fresh_ids (B st') (c st').
Proof.
  intros Hinv Hids Hstep.
  destruct (yen_step_shape st G _ G' Hinv Hstep)
    as (P & lP & Bc & HP & _ & Hrun & _ & _ & Ho).
  assert (fresh_ids Bc.1 Bc.2) as [Hnd Hlt].
  { apply (spurs_fresh (paths st) P (λ Bc, fresh_ids Bc.1 Bc.2))
      with (k := length P - 1) (m := 0) (Bc := (B st, c st)) (G := G) (G' := G');
      [|done| |simpl; lia|by destruct Hinv..|done|done].
    - intros c' Hc'. by apply (yinv_accepted G0 s t weight st G c').
    - intros Bc0 l Y [Hnd0 Hlt0] _ _. unfold heappush. split; simpl.
      + rewrite fmap_app. simpl.
        apply NoDup_app. split_and!; [done| |apply NoDup_singleton].
        intros n (e & Hn & He)%list_elem_of_fmap Hc%list_elem_of_singleton.
        specialize (Hlt0 _ He). lia.
      + intros e [He| ->%list_elem_of_singleton]%elem_of_app; [|simpl; lia].
        specialize (Hlt0 _ He). lia. }
  destruct (heappop Bc.1) as [[lp B']|] eqn:Hpop; [|done].
  injection Ho as ->. simpl. split.
  - rewrite (heappop_perm _ _ _ Hpop) in Hnd. simpl in Hnd.
    by apply NoDup_cons in Hnd as [_ ?].
  - intros e He. apply Hlt. by eapply heappop_rest.
Qed.

(** When the heap is empty after the spur loop, every loopless path is
    accepted. *)
Lemma yen_step_exhausted st G G' X z :
  yinv G0 s t weight st G →
  yen_step G0 t weight st G = (Ok None, G') →
  good G0 s t weight X z → X ∈ paths st.
Proof.
  intros Hinv Hstep HX.
  destruct (yen_step_shape st G _ G' Hinv Hstep)
    as (P & lP & Bc & HP & _ & _ & _ & Hall & Ho).
  destruct (heappop Bc.1) as [[lp B']|] eqn:Hpop; [done|].
  apply heappop_None in Hpop.
  destruct (decide (X ∈ paths st)) as [|HXA]; [done|]. exfalso.
  destruct (yinv_last _ _ _ _ _ _ Hinv) as (P' & lP' & HP' & _ & HgP).
  destruct (shares_longest G0 s t weight (paths st) X z P' lP')
    as (j & Hsh & Hnsh); [done..|by apply last_Some_elem_of|done|].
  destruct (Hall X z j HX HXA Hsh Hnsh I) as (e & He & _).
  rewrite Hpop in He. by apply elem_of_nil in He.
Qed.

Lemma yen_loop_exhausted n : ∀ st G st' G' X z,
  yinv G0 s t weight st G →
  yen_loop n G0 t weight st G = (Ok st', G') →
  length (paths st') < length (paths st) + n →
  good G0 s t weight X z → X ∈ paths st'.
Proof.
  induction n as [|n IH]; intros st G st' G' X z Hinv; simpl.
  - intros [= <- <-]. lia.
  - destruct (yen_step_ok G0 s t weight Hnonneg0 st G Hinv) as (o & G1 & Hrun & Hpost).
    rewrite (run_bind _ _ _ _ _ Hrun). destruct o as [st1|].
    + destruct Hpost as [Hinv1 (l & p & Hl & Hp)]. intros Hloop Hlen.
      apply (IH st1 G1 st' G'); [done..|].
      rewrite Hp, length_app. simpl. lia.
    + intros [= <- <-] _. by apply (yen_step_exhausted st G G1 X z).
Qed.

(** More turns only append. *)
Lemma yen_loop_extends n : ∀ m st G st1 G1 st2 G2,
  yinv G0 s t weight st G →
  yen_loop n G0 t weight st G = (Ok st1, G1) →
  yen_loop (n + m) G0 t weight st G = (Ok st2, G2) →
  ∃ ls ps, lengths st2 = lengths st1 ++ ls ∧ paths st2 = paths st1 ++ ps ∧
           length ls = length ps.
Proof.
  induction n as [|n IH]; intros m st G st1 G1 st2 G2 Hinv; simpl.
  - intros [= <- <-] Hloop.
    destruct (yen_loop_ok G0 s t weight Hnonneg0 m st G Hinv)
      as (st' & G' & Hloop' & _ & _ & [G'' Hinv'] & ls & ps & Hls & Hps & _).
    rewrite Hloop in Hloop'. injection Hloop' as <- <-.
    exists ls, ps. split_and!; [done..|].
    pose proof (Forall2_length _ _ _ (yi_accepted _ _ _ _ _ _ Hinv)) as H1.
    pose proof (Forall2_length _ _ _ (yi_accepted _ _ _ _ _ _ Hinv')) as H2.
    rewrite Hls, Hps, !length_app in H2. lia.
  - destruct (yen_step_ok G0 s t weight Hnonneg0 st G Hinv) as (o & Gn & Hrun & Hpost).
    rewrite !(run_bind _ _ _ _ _ Hrun). destruct o as [st'|].
    + destruct Hpost as [Hinv' _]. by apply IH.
    + intros [= <- <-] [= <- <-]. exists [], []. by rewrite !app_nil_r.
Qed.

(** The candidates never hold the first accepted path. *)
Lemma yen_step_first_once p0 st G st' G' :
  yinv G0 s t weight st G →
  (∃ rest, paths st = p0 :: rest ∧ (p0 ∉ rest) ∧ ∀ e, e ∈ B st → e.2 ≠ p0) →
  yen_step G0 t weight st G = (Ok (Some st'), G') →
  ∃ rest, paths st' = p0 :: rest ∧ (p0 ∉ rest) ∧ ∀ e, e ∈ B st' → e.2 ≠ p0.
Proof.
  intros Hinv (rest & Hrest & Hnotin & HB) Hstep.
  destruct (yen_step_shape st G _ G' Hinv Hstep)
    as (P & lP & Bc & HP & _ & Hrun & _ & _ & Ho).
  assert (∀ e, e ∈ Bc.1 → e.2 ≠ p0) as HBc.
  { apply (spurs_fresh (paths st) P (λ Bc, ∀ e, e ∈ Bc.1 → e.2 ≠ p0))
      with (k := length P - 1) (m := 0) (Bc := (B st, c st)) (G := G) (G' := G');
      [|done| |simpl; lia|by destruct Hinv..|done|done].
    - intros c' Hc'. by apply (yinv_accepted G0 s t weight st G c').
    - intros Bc0 l Y HB0 _ HYA e. unfold heappush. simpl.
      intros [He| ->%list_elem_of_singleton]%elem_of_app; [by apply HB0|].
      simpl. intros ->. apply HYA. rewrite Hrest. left. }
  destruct (heappop Bc.1) as [[lp B']|] eqn:Hpop; [|done].
  injection Ho as ->. simpl. exists (rest ++ [lp.2]). split_and!.
  - by rewrite Hrest.
  - intros [?| ->%list_elem_of_singleton]%elem_of_app; [done|].
    by apply (HBc lp); [eapply heappop_elem|].
  - intros e He. apply HBc. by eapply heappop_rest.
Qed.

(** Every push takes one sequence id and every pop moves one candidate to
    the results. *)
Lemma yen_step_counts st G st' G' :
  yinv G0 s t weight st G →
  length (B st) + length (paths st) = S (c st) →
  yen_step G0 t weight st G = (Ok (Some st'), G') →
  length (B st') + length (paths st') = S (c st').
Proof.
  intros Hinv Hcount Hstep.
  destruct (yen_step_shape st G _ G' Hinv Hstep)
    as (P & lP & Bc & HP & _ & Hrun & _ & _ & Ho).
  assert (length Bc.1 + length (paths st) = S Bc.2) as Hc.
  { apply (spurs_fresh (paths st) P
             (λ Bc, length Bc.1 + length (paths st) = S Bc.2))
      with (k := length P - 1) (m := 0) (Bc := (B st, c st)) (G := G) (G' := G');
      [|done| |simpl; lia|by destruct Hinv..|done|done].
    - intros c' Hc'. by apply (yinv_accepted G0 s t weight st G c').
    - intros Bc0 l Y HB0 _ _. unfold heappush. simpl.
      rewrite length_app. simpl. lia. }
  destruct (heappop Bc.1) as [[lp B']|] eqn:Hpop; [|done].
  injection Ho as ->. simpl. apply heappop_length in Hpop.
  rewrite length_app. simpl. lia.
Qed.

(** The candidate a turn accepts is one of least length in the heap. *)
Lemma yen_step_least st G st' G' :
  yinv G0 s t weight st G →
  yen_step G0 t weight st G = (Ok (Some st'), G') →
  ∃ l p, lengths st' = lengths st ++ [l] ∧ paths st' = paths st ++ [p] ∧
         ∀ e, e ∈ B st' → (l ≤ e.1.1)%Z.
Proof.
  intros Hinv Hstep.
  destruct (yen_step_shape st G _ G' Hinv Hstep)
    as (P & lP & Bc & _ & _ & _ & _ & _ & Ho).
  destruct (heappop Bc.1) as [[lp B']|] eqn:Hpop; [|done].
  injection Ho as ->. simpl. exists lp.1.1, lp.2. split_and!; [done..|].
  intros e He. apply (heappop_min _ _ _ _ Hpop). by eapply heappop_rest.
Qed.

End yen_more.

(** * More about [k_shortest_paths] *)

Section more.
Context {node : Type} `{Countable node}.
Implicit Types G : graph node.
Implicit Types p X : list node.

Lemma good_iff G s t weight X z :
  good G s t weight X z ↔
  st_path G s t X ∧ loopless X ∧ path_weight G weight X = Some z.
Proof.
  unfold good, loopless. rewrite (st_path_weight G s t weight). split.
  - intros (? & ? & ? & Hw). rewrite Hw. eauto 10.
  - intros ((? & ? & _) & ? & ?). done.
Qed.

Lemma loopless_closed s X :
  head X = Some s → last X = Some s → NoDup X → X = [s].
Proof.
  intros Hhd Hlast Hnd. destruct X as [|x [|y X]]; [done| |].
  - by injection Hhd as ->.
  - exfalso. injection Hhd as ->. apply NoDup_cons in Hnd as [Hnotin _].
    apply Hnotin. apply last_Some_elem_of. by rewrite last_cons_cons in Hlast.
Qed.

Lemma non_decreasing_le l : ∀ d i x y,
  non_decreasing l → l !! i = Some x → l !! (i + d) = Some y → (x ≤ y)%Z.
Proof.
  induction d as [|d IH]; intros i x y Hl Hx Hy.
  - replace (i + 0) with i in Hy by lia. simplify_eq. lia.
  - destruct (lookup_lt_is_Some_2 l (i + d)) as [m Hm].
    { apply lookup_lt_Some in Hy. lia. }
    specialize (IH i x m Hl Hx Hm).
    assert (m ≤ y)%Z; [|lia]. apply (Hl (i + d)); [done|].
    by replace (i + d + 1) with (i + S d) by lia.
Qed.

Lemma non_decreasing_last l x m :
  non_decreasing l → x ∈ l → last l = Some m → (x ≤ m)%Z.
Proof.
  intros Hl [i Hi]%list_elem_of_lookup Hm. rewrite last_lookup in Hm.
  pose proof (lookup_lt_Some _ _ _ Hi).
  apply (non_decreasing_le l (pred (length l) - i) i); [done..|].
  by replace (i + (pred (length l) - i)) with (pred (length l)) by lia.
Qed.

Lemma k_shortest_paths_more G s t k weight :
  simple_graph G → nonneg_weights G weight → reachable G s t →
  ∃ lengths paths G',
    k_shortest_paths G s t k weight = (Ok (lengths, paths), G') ∧
    (∀ X z, good G s t weight X z → X ∉ paths →
            ∀ l, l ∈ lengths → (l ≤ z)%Z) ∧
    (length paths < k → ∀ X z, good G s t weight X z → X ∈ paths) ∧
    (∃ p0 rest, paths = p0 :: rest ∧ p0 ∉ rest).
Proof.
  intros Hs Hn Hreach. destruct (decide (s = t)) as [<-|Hst].
  - exists [0%Z], [[s]], G. rewrite k_shortest_paths_same.
    assert (∀ X z, good G s s weight X z → X ∈ [[s]]) as Hall.
    { intros X z (? & ? & ? & _). rewrite (loopless_closed s X); [left|done..]. }
    split_and!; [done| | |].
    + intros X z HX HXA. destruct HXA. by eapply Hall.
    + intros _. apply Hall.
    + exists [s], []. split; [done|]. by intros ?%elem_of_nil.
  - destruct (k_shortest_paths_run G s t k weight Hs Hn Hst)
      as [[Hno _]|(_ & st0 & st & G' & Hstart & Hloop & Hrun)]; [done|].
    destruct (yen_start_Some G s t weight st0 Hs Hn Hst Hstart)
      as (Hinv0 & l0 & p0 & -> & Hopt).
    destruct (yen_loop_ok G s t weight Hn (k - 1) _ G Hinv0)
      as (st1 & G1 & Hloop1 & _ & _ & [G'' Hinv] & ls & ps & Hls & Hps & Hlen).
    rewrite Hloop in Hloop1. injection Hloop1 as <- <-.
    exists (lengths st), (paths st), G'. split_and!; [done| | |].
    + intros X z HX HXA l Hl.
      destruct (yinv_last _ _ _ _ _ _ Hinv) as (P & lP & _ & HlP & _).
      pose proof (yi_least _ _ _ _ _ _ Hinv X z lP HX HXA HlP).
      pose proof (non_decreasing_last _ l lP (yi_sorted _ _ _ _ _ _ Hinv) Hl HlP).
      lia.
    + intros Hshort X z HX.
      apply (yen_loop_exhausted G s t weight Hn (k - 1) _ G st G' X z Hinv0 Hloop);
        [simpl; lia|done].
    + assert (∃ rest, paths st = p0 :: rest ∧ (p0 ∉ rest) ∧
                      ∀ e, e ∈ B st → e.2 ≠ p0) as (rest & ? & ? & _); [|eauto].
      apply (yen_loop_keeps G s t weight Hn
               (λ st, ∃ rest, paths st = p0 :: rest ∧ (p0 ∉ rest) ∧
                              ∀ e, e ∈ B st → e.2 ≠ p0))
        with (n := k - 1) (st := YState [l0] [p0] [] 0) (G := G) (G' := G');
        [|done| |done].
      * intros st1 G1 st2 G2. apply yen_step_first_once. done.
      * exists []. simpl. split_and!; [done|by intros ?%elem_of_nil|].
        by intros e ?%elem_of_nil.
Qed.





(** X10: for [k <= 1], also for [k = 0], the outer loop has no turn: the call
    returns the shortest path alone and the very graph it was given. *)
Theorem one_result_for_small_k G s t k weight :
  simple_graph G → nonneg_weights G weight → reachable G s t → k ≤ 1 →
  ∃ l p, k_shortest_paths G s t k weight = (Ok ([l], [p]), G) ∧
         shortest_path G s t weight p l.
Proof.
  intros Hs Hn Hr Hk. destruct (decide (s = t)) as [<-|Hst].
  - exists 0%Z, [s]. rewrite k_shortest_paths_same. split; [done|].
    split_and!; [done|done|].
    intros q z _. by apply path_weight_nonneg.
  - destruct (k_shortest_paths_run G s t k weight Hs Hn Hst)
      as [[Hno _]|(_ & st0 & st & G' & Hstart & Hloop & Hrun)]; [done|].
    destruct (yen_start_Some G s t weight st0 Hs Hn Hst Hstart)
      as (Hinv0 & l0 & p0 & -> & Hopt).
    replace (k - 1) with 0 in Hloop by lia. simpl in Hloop.
    injection Hloop as <- <-. exists l0, p0. split; [done|].
    pose proof (yi_accepted _ _ _ _ _ _ Hinv0) as Hacc. simpl in Hacc.
    apply Forall2_cons_1 in Hacc as [(Hhd & Hlast & _ & Hw) _].
    split_and!; [|done|].
    + apply (st_path_weight G s t weight). by rewrite Hw.
    + intros q z (? & ? & _). by apply Hopt.
Qed.




(** X14: whenever a turn of the outer loop can begin, all removed edges are
    back: the graph has the edges and attributes it was given. *)
Theorem graph_restored_before_each_turn G s t weight st0 st G' :
  simple_graph G → nonneg_weights G weight → s ≠ t →
  yen_start G s t weight = Some st0 →
  yen_reach G t weight st0 st G' →
  same_graph G' G ∧ simple_graph G'.
Proof.
  intros Hs Hn Hst Hstart Hreach.
  destruct (yen_start_Some G s t weight st0 Hs Hn Hst Hstart) as (Hinv0 & _).
  pose proof (yen_reach_yinv G s t weight Hn st0 st G' Hinv0 Hreach) as Hinv.
  split; by destruct Hinv.
Qed.

(** X15: the counter has counted every candidate: the heap and the results
    together hold one entry more than the sequence ids handed out. *)
Theorem counter_counts_candidates G s t weight st0 st G' :
  simple_graph G → nonneg_weights G weight → s ≠ t →
  yen_start G s t weight = Some st0 →
  yen_reach G t weight st0 st G' →
  length (B st) + length (paths st) = S (c st).
Proof.
  intros Hs Hn Hst Hstart Hreach.
  destruct (yen_start_Some G s t weight st0 Hs Hn Hst Hstart)
    as (Hinv0 & l0 & p0 & -> & _).
  apply (yen_reach_keeps G s t weight Hn
           (λ st, length (B st) + length (paths st) = S (c st))
           (YState [l0] [p0] [] 0)) with (G := G'); [|done|done|done].
  intros st1 G1 st2 G2. by apply yen_step_counts.
Qed.



End more.

(** * The further properties on the example graphs *)

Lemma demo_turn :
  ∃ st G',
    yen_reach demo_graph "F" "weight"
      (YState [17%Z] [["A"; "B"; "D"; "F"]] [] 0) st G' ∧
    B st = [(27%Z, 0, ["A"; "C"; "E"; "F"])].
Proof.
  assert (∃ st G',
    yen_step demo_graph "F" "weight" (YState [17%Z] [["A"; "B"; "D"; "F"]] [] 0)
      demo_graph = (Ok (Some st), G') ∧
    B st = [(27%Z, 0, ["A"; "C"; "E"; "F"])])
    as (st & G' & Hstep & HB).
  { eexists _, _. split; [vm_compute; reflexivity|reflexivity]. }
  exists st, G'. split; [|exact HB].
  eapply reach_turn; [apply reach_start|exact Hstep].
Qed.

Lemma demo_turn_paths :
  ∃ st G',
    yen_reach demo_graph "F" "weight"
      (YState [17%Z] [["A"; "B"; "D"; "F"]] [] 0) st G' ∧
    paths st = [["A"; "B"; "D"; "F"]; ["A"; "B"; "C"; "E"; "F"]].
Proof.
  assert (∃ st G',
    yen_step demo_graph "F" "weight" (YState [17%Z] [["A"; "B"; "D"; "F"]] [] 0)
      demo_graph = (Ok (Some st), G') ∧
    paths st = [["A"; "B"; "D"; "F"]; ["A"; "B"; "C"; "E"; "F"]])
    as (st & G' & Hstep & HB).
  { eexists _, _. split; [vm_compute; reflexivity|reflexivity]. }
  exists st, G'. split; [|exact HB].
  eapply reach_turn; [apply reach_start|exact Hstep].
Qed.

Lemma demo_start :
  yen_start demo_graph "A" "F" "weight" =
  Some (YState [17%Z] [["A"; "B"; "D"; "F"]] [] 0).
Proof. vm_compute. reflexivity. Qed.

Lemma get_path_length_nonneg_witness :
  nonneg_weights demo_graph "weight" ∧
  get_path_length demo_graph ["A"; "B"; "D"; "F"] "weight" = Ok 17%Z ∧
  (0 ≤ 17)%Z.
Proof.
  split; [valid_graph|]. split; [vm_compute; reflexivity|].
  apply (get_path_length_nonneg demo_graph ["A"; "B"; "D"; "F"] "weight" 17);
    [valid_graph|vm_compute; reflexivity].
Defined.





Lemma one_result_for_small_k_witness :
  simple_graph demo_graph ∧ nonneg_weights demo_graph "weight" ∧
  reachable demo_graph "A" "F" ∧ 0 ≤ 1 ∧
  ∃ l p,
    k_shortest_paths demo_graph "A" "F" 0 "weight" = (Ok ([l], [p]), demo_graph) ∧
    shortest_path demo_graph "A" "F" "weight" p l.
Proof.
  split; [valid_graph|]. split; [valid_graph|]. split; [valid_graph|].
  split; [lia|].
  apply one_result_for_small_k; [valid_graph..|lia].
Defined.




Lemma graph_restored_before_each_turn_witness :
  ∃ st G',
    yen_reach demo_graph "F" "weight"
      (YState [17%Z] [["A"; "B"; "D"; "F"]] [] 0) st G' ∧
    B st = [(27%Z, 0, ["A"; "C"; "E"; "F"])] ∧
    same_graph G' demo_graph ∧ simple_graph G'.
Proof.
  destruct demo_turn as (st & G' & Hreach & HB).
  exists st, G'. split; [exact Hreach|]. split; [exact HB|].
  apply (graph_restored_before_each_turn demo_graph "A" "F" "weight"
           (YState [17%Z] [["A"; "B"; "D"; "F"]] [] 0) st G');
    [valid_graph|valid_graph|discriminate|exact demo_start|exact Hreach].
Defined.

Lemma counter_counts_candidates_witness :
  ∃ st G',
    yen_reach demo_graph "F" "weight"
      (YState [17%Z] [["A"; "B"; "D"; "F"]] [] 0) st G' ∧
    B st = [(27%Z, 0, ["A"; "C"; "E"; "F"])] ∧
    length (B st) + length (paths st) = S (c st).
Proof.
  destruct demo_turn as (st & G' & Hreach & HB).
  exists st, G'. split; [exact Hreach|]. split; [exact HB|].
  apply (counter_counts_candidates demo_graph "A" "F" "weight"
           (YState [17%Z] [["A"; "B"; "D"; "F"]] [] 0) st G');
    [valid_graph|valid_graph|discriminate|exact demo_start|exact Hreach].
Defined.


